(** * MiniGPT: the offline fallback responder of chatbot-backend

    A shallow embedding of [src/minigpt.py] and the properties of its
    response tree, its two traversal strategies and their reconciliation.

    Conventions of the embedding.
    - A Python [str] is a [string]; its characters are read as the code
      points U+0000 .. U+00FF, on which [str.lower] acts character by
      character and [str.split()] knows twelve whitespace characters.
    - The knowledge base is the [dict] that [json.load] returns, kept as the
      list of its items in insertion order (the order [dict.items()] yields).
    - [random] is an explicit generator state threaded through the calls;
      a Python exception is the [Raise] outcome of a computation. *)

From Equations Require Import Equations.
From Stdlib Require Import List Arith Lia String Ascii Bool Permutation.
Import ListNotations.

Open Scope string_scope.
Open Scope list_scope.
Open Scope nat_scope.

(** ** Python strings *)

Module PyStr.

(** [c.isspace()] for a code point below 256: TAB, LF, VT, FF, CR, the
    separators FS, GS, RS, US, space, NEL and the no-break space. *)
Definition is_space (c : ascii) : bool :=
  let n := nat_of_ascii c in
  ((9 <=? n) && (n <=? 13)) || ((28 <=? n) && (n <=? 32))
  || (n =? 133) || (n =? 160).

(** [c.lower()]: A-Z, and the Latin-1 capitals U+00C0 .. U+00DE without the
    multiplication sign U+00D7, move up by 32. *)
Definition lower_char (c : ascii) : ascii :=
  let n := nat_of_ascii c in
  if ((65 <=? n) && (n <=? 90))
     || ((192 <=? n) && (n <=? 222) && negb (n =? 215))
  then ascii_of_nat (n + 32)
  else c.

(** [s.lower()] *)
Fixpoint lower (s : string) : string :=
  match s with
  | EmptyString => EmptyString
  | String c s' => String (lower_char c) (lower s')
  end.

(** Truth value of a string: [bool(s)], false exactly for the empty one. *)
Definition truthy (s : string) : bool :=
  match s with
  | EmptyString => false
  | String _ _ => true
  end.

(** [s.startswith(p)] *)
Fixpoint startswith (p s : string) : bool :=
  match p, s with
  | EmptyString, _ => true
  | String _ _, EmptyString => false
  | String a p', String b s' => Ascii.eqb a b && startswith p' s'
  end.

(** [sub in s]: [sub] occurs in [s] at some position. *)
Fixpoint contains (sub s : string) : bool :=
  startswith sub s
  || match s with
     | EmptyString => false
     | String _ s' => contains sub s'
     end.

(** The scan of [s.split()]: [w] is the word read so far; a whitespace
    character closes it (when it is not empty), the end of the string too. *)
Fixpoint split_from (w : string) (s : string) : list string :=
  match s with
  | EmptyString => if truthy w then [w] else []
  | String c s' =>
      if is_space c
      then (if truthy w then w :: split_from EmptyString s'
            else split_from EmptyString s')
      else split_from (w ++ String c EmptyString)%string s'
  end.

(** [s.split()] *)
Definition split (s : string) : list string := split_from EmptyString s.

(** Every character of [s] is whitespace ([s.isspace()] or [s] empty). *)
Fixpoint all_space (s : string) : bool :=
  match s with
  | EmptyString => true
  | String c s' => is_space c && all_space s'
  end.

(** No character of [s] is whitespace. *)
Fixpoint no_space (s : string) : bool :=
  match s with
  | EmptyString => true
  | String c s' => negb (is_space c) && no_space s'
  end.

(** [t] occurs in [s]: the declarative reading of substring containment. *)
Definition is_substring (t s : string) : Prop :=
  exists pre post, s = (pre ++ t ++ post)%string.

(** [rest] is empty or begins with a whitespace character. *)
Definition at_boundary (rest : string) : Prop :=
  rest = EmptyString
  \/ exists c rest', rest = String c rest' /\ is_space c = true.

(** [words] are the whitespace-separated words of [s], in order: [s] is
    whitespace, or whitespace, then a non-empty word free of whitespace that
    ends at a boundary, then a string with the remaining words. *)
Inductive tokenization : string -> list string -> Prop :=
| tok_blank (s : string) :
    all_space s = true -> tokenization s []
| tok_word (ws w rest : string) (words : list string) :
    all_space ws = true ->
    w <> EmptyString -> no_space w = true ->
    at_boundary rest ->
    tokenization rest words ->
    tokenization (ws ++ w ++ rest)%string (w :: words).

End PyStr.

Import PyStr.

(** ** Outcomes and the random generator *)

(** The two exceptions the responder can raise: a missing [dict] key and an
    index out of range (also what [random.choice] raises on an empty list). *)
Inductive exn : Type :=
| KeyError
| IndexError.

Inductive result (A : Type) : Type :=
| Ok (a : A)
| Raise (e : exn).

Arguments Ok {A} a.
Arguments Raise {A} e.

(** The state of [random]: the draws still to come. *)
Definition Rng : Type := nat -> nat.

(** A computation that may draw from [random] and may raise. *)
Definition M (A : Type) : Type := Rng -> result (A * Rng).

Definition ret {A : Type} (a : A) : M A := fun g => Ok (a, g).

Definition raise {A : Type} (e : exn) : M A := fun _ => Raise e.

Definition bind {A B : Type} (m : M A) (k : A -> M B) : M B :=
  fun g =>
    match m g with
    | Ok (a, g') => k a g'
    | Raise e => Raise e
    end.

Notation "x <- m ;; k" := (bind m (fun x => k))
  (at level 61, m at next level, right associativity).

(** The value a computation returns, when it returns. *)
Definition value {A : Type} (r : result (A * Rng)) : result A :=
  match r with
  | Ok (a, _) => Ok a
  | Raise e => Raise e
  end.

(** A [for] loop over [l] whose body updates the loop state [s]. *)
Fixpoint for_each {A S : Type} (l : list A) (body : S -> A -> M S) (s : S) : M S :=
  match l with
  | [] => ret s
  | a :: l' => s' <- body s a ;; for_each l' body s'
  end.

(** [random._randbelow(n)] for [n > 0]: the next draw, reduced below [n]. *)
Definition randbelow (n : nat) : M nat :=
  fun g => Ok (g 0 mod n, fun i => g (S i)).

(** [seq[i]] on a list *)
Definition getitem {A : Type} (seq : list A) (i : nat) : M A :=
  match nth_error seq i with
  | Some a => ret a
  | None => raise IndexError
  end.

(** [random.choice(seq)] *)
Definition choice {A : Type} (seq : list A) : M A :=
  match seq with
  | [] => raise IndexError
  | _ :: _ => i <- randbelow (List.length seq) ;; getitem seq i
  end.

(** ** Data model *)

(** One value of the knowledge base: [{"keywords": [...], "responses": [...]}]. *)
Record Entry : Type := mkEntry {
  keywords : list string;
  responses : list string
}.

(** The loaded knowledge base: the items of the [dict], in insertion order. *)
Definition KnowledgeBase : Type := list (string * Entry).

(** The value stored under [key], if any. *)
Fixpoint find_key (kb : KnowledgeBase) (key : string) : option Entry :=
  match kb with
  | [] => None
  | (k, data) :: kb' => if String.eqb k key then Some data else find_key kb' key
  end.

(** [kb[key]] *)
Definition lookup (kb : KnowledgeBase) (key : string) : M Entry :=
  match find_key kb key with
  | Some data => ret data
  | None => raise KeyError
  end.

(** [class Node]. The type is nested in [list]; the proofs go by the
    recursion of the traversals, so no induction scheme is generated. *)
Local Unset Elimination Schemes.

Inductive Node : Type :=
  mkNode { keyword : string; response : string; children : list Node }.

Local Set Elimination Schemes.

(** [node.children.append(child)] *)
Definition append_child (node child : Node) : Node :=
  mkNode (keyword node) (response node) (children node ++ [child]).

(** [class MiniGPT]: the two attributes [__init__] sets. *)
Record MiniGPT : Type := mkMiniGPT {
  knowledge_base : KnowledgeBase;
  root : Node
}.

(** ** Building the response tree *)

(** The body of the loop over the categories: the category node, then one
    child per keyword, each with a draw of its own. *)
Definition build_category (item : string * Entry) : M Node :=
  let '(category, data) := item in
  r <- choice (responses data) ;;
  for_each (keywords data)
    (fun category_node keyword =>
       r' <- choice (responses data) ;;
       ret (append_child category_node (mkNode keyword r' [])))
    (mkNode category r []).

(** [MiniGPT._build_response_tree] *)
Definition _build_response_tree (kb : KnowledgeBase) : M Node :=
  for_each kb
    (fun root item =>
       category_node <- build_category item ;;
       ret (append_child root category_node))
    (mkNode "ROOT" "" []).

(** [MiniGPT.__init__], from the knowledge base [_load_knowledge_base] read. *)
Definition init (kb : KnowledgeBase) : M MiniGPT :=
  root <- _build_response_tree kb ;;
  ret (mkMiniGPT kb root).

(** ** Scoring *)

(** [set(query.lower().split())]: the distinct tokens of the query. The
    order in which a [set] is iterated does not matter to a sum. *)
Definition query_words_of (query : string) : list string :=
  nodup string_dec (split (lower query)).

(** The condition of the generator expression, for one word. *)
Definition word_matches (node : Node) (word : string) : bool :=
  contains word (lower (keyword node)) || contains (lower (keyword node)) word.

(** [sum(1 for word in query_words if word in node.keyword.lower()
                                     or node.keyword.lower() in word)] *)
Definition score (query_words : list string) (node : Node) : nat :=
  list_sum (map (fun _ => 1) (filter (word_matches node) query_words)).

(** The accumulators of a traversal: [best_match] and [best_score]. *)
Definition Best : Type := (option Node * nat)%type.

(** [if score > best_score and node.response: ...] *)
Definition update_best (query_words : list string) (best : Best) (node : Node) : Best :=
  let '(best_match, best_score) := best in
  let score := score query_words node in
  if (best_score <? score) && truthy (response node)
  then (Some node, score)
  else (best_match, best_score).

(** ** Traversals *)

Fixpoint node_size (n : Node) : nat :=
  match n with
  | mkNode _ _ cs => S (list_sum (map node_size cs))
  end.

Definition forest_size (l : list Node) : nat := list_sum (map node_size l).

(** [for child in node.children: queue.append(child)] *)
Definition enqueue_children (queue : list Node) (node : Node) : list Node :=
  fold_left (fun q child => q ++ [child]) (children node) queue.

(** [for child in reversed(node.children): stack.append(child)]; the top of
    the stack (the end of the Python list) is the head of the list. *)
Definition push_children (stack : list Node) (node : Node) : list Node :=
  fold_left (fun st child => child :: st) (rev (children node)) stack.

(** The [while queue:] loop of [_bfs_search]: [queue.popleft()] takes the
    head, the children of the node go to the end. *)
Equations? bfs_loop (query_words : list string) (queue : list Node) (best : Best)
  : Best by wf (forest_size queue) lt :=
  bfs_loop query_words [] best := best;
  bfs_loop query_words (node :: queue) best :=
    bfs_loop query_words (enqueue_children queue node)
             (update_best query_words best node).
Proof.
  clear. unfold enqueue_children. destruct node as [k r cs]. cbn [children].
  assert (E : forall q, forest_size (fold_left (fun q child => q ++ [child]) cs q)
                        = forest_size q + forest_size cs).
  { induction cs as [|c cs IH]; intro q; cbn [fold_left].
    - unfold forest_size. simpl. lia.
    - rewrite IH. unfold forest_size. rewrite map_app, list_sum_app. simpl. lia. }
  rewrite E. unfold forest_size. simpl. fold (forest_size cs). fold (forest_size queue). lia.
Qed.

(** The [while stack:] loop of [_dfs_search]: [stack.pop()] takes the top,
    the children of the node are pushed last child first. *)
Equations? dfs_loop (query_words : list string) (stack : list Node) (best : Best)
  : Best by wf (forest_size stack) lt :=
  dfs_loop query_words [] best := best;
  dfs_loop query_words (node :: stack) best :=
    dfs_loop query_words (push_children stack node)
             (update_best query_words best node).
Proof.
  clear. unfold push_children. destruct node as [k r cs]. cbn [children].
  assert (E : forall l st, forest_size (fold_left (fun st child => child :: st) l st)
                           = forest_size st + forest_size l).
  { induction l as [|c l IH]; intro st; cbn [fold_left].
    - unfold forest_size. simpl. lia.
    - rewrite IH. unfold forest_size. simpl. lia. }
  assert (R : forest_size (rev cs) = forest_size cs).
  { unfold forest_size. induction cs as [|c cs IH]; simpl; [reflexivity|].
    rewrite map_app, list_sum_app, IH. simpl. lia. }
  rewrite E, R. unfold forest_size. simpl. lia.
Qed.

(** The nodes in the order the breadth-first loop takes them off the queue. *)
Equations? bfs_visits (queue : list Node) : list Node by wf (forest_size queue) lt :=
  bfs_visits [] := [];
  bfs_visits (node :: queue) := node :: bfs_visits (enqueue_children queue node).
Proof.
  clear. unfold enqueue_children. destruct node as [k r cs]. cbn [children].
  assert (E : forall q, forest_size (fold_left (fun q child => q ++ [child]) cs q)
                        = forest_size q + forest_size cs).
  { induction cs as [|c cs IH]; intro q; cbn [fold_left].
    - unfold forest_size. simpl. lia.
    - rewrite IH. unfold forest_size. rewrite map_app, list_sum_app. simpl. lia. }
  rewrite E. unfold forest_size. simpl. fold (forest_size cs). fold (forest_size queue). lia.
Qed.

(** The nodes in the order the depth-first loop pops them off the stack. *)
Equations? dfs_visits (stack : list Node) : list Node by wf (forest_size stack) lt :=
  dfs_visits [] := [];
  dfs_visits (node :: stack) := node :: dfs_visits (push_children stack node).
Proof.
  clear. unfold push_children. destruct node as [k r cs]. cbn [children].
  assert (E : forall l st, forest_size (fold_left (fun st child => child :: st) l st)
                           = forest_size st + forest_size l).
  { induction l as [|c l IH]; intro st; cbn [fold_left].
    - unfold forest_size. simpl. lia.
    - rewrite IH. unfold forest_size. simpl. lia. }
  assert (R : forest_size (rev cs) = forest_size cs).
  { unfold forest_size. induction cs as [|c cs IH]; simpl; [reflexivity|].
    rewrite map_app, list_sum_app, IH. simpl. lia. }
  rewrite E, R. unfold forest_size. simpl. lia.
Qed.

(** The preorder of a tree: the node, then its subtrees from left to right. *)
Fixpoint preorder (n : Node) : list Node :=
  match n with
  | mkNode _ _ cs => n :: flat_map preorder cs
  end.

(** ** The two strategies and their reconciliation *)

(** [random.choice(self.knowledge_base["fallback"]["responses"])] *)
Definition fallback_choice (self : MiniGPT) : M string :=
  data <- lookup (knowledge_base self) "fallback" ;;
  choice (responses data).

(** [self.knowledge_base["fallback"]["responses"][0]] *)
Definition fallback_first (self : MiniGPT) : M string :=
  data <- lookup (knowledge_base self) "fallback" ;;
  getitem (responses data) 0.

(** The two lines after a loop: the response of the best match when there
    is one with a positive score, a random fallback response otherwise. *)
Definition conclude (self : MiniGPT) (best : Best) : M string :=
  match best with
  | (Some best_match, best_score) =>
      if 0 <? best_score then ret (response best_match) else fallback_choice self
  | (None, _) => fallback_choice self
  end.

(** [MiniGPT._bfs_search] *)
Definition _bfs_search (self : MiniGPT) (query : string) : M string :=
  if negb (truthy query) then fallback_first self
  else
    let query_words := query_words_of query in
    conclude self (bfs_loop query_words [root self] (None, 0)).

(** [MiniGPT._dfs_search] *)
Definition _dfs_search (self : MiniGPT) (query : string) : M string :=
  if negb (truthy query) then fallback_first self
  else
    let query_words := query_words_of query in
    conclude self (dfs_loop query_words [root self] (None, 0)).

(** [MiniGPT.get_response] *)
Definition get_response (self : MiniGPT) (query : string) : M string :=
  bfs_response <- _bfs_search self query ;;
  dfs_response <- _dfs_search self query ;;
  if String.length bfs_response <? String.length dfs_response
  then ret dfs_response
  else ret bfs_response.

(** ** The score as the specification words it *)

(** Symmetric containment between a query token and the lowercased label. *)
Definition token_matches (label token : string) : Prop :=
  is_substring token (lower label) \/ is_substring (lower label) token.

(** [toks] lists, each once, the whitespace-separated tokens of the
    lowercased query that match the label of [node]. *)
Definition distinct_matching_tokens
           (query : string) (node : Node) (toks : list string) : Prop :=
  NoDup toks
  /\ forall t, In t toks
              <-> (exists words, tokenization (lower query) words /\ In t words)
                  /\ token_matches (keyword node) t.

(** ** The shape of the built tree *)

(** [n] is the category node of the item [(category, data)]: labelled with
    the category, bound to one of its responses, with one leaf per keyword,
    in order, each bound to one of the responses of the same category. *)
Definition category_node_of (item : string * Entry) (n : Node) : Prop :=
  keyword n = fst item
  /\ In (response n) (responses (snd item))
  /\ map keyword (children n) = keywords (snd item)
  /\ Forall (fun k => In (response k) (responses (snd item)) /\ children k = [])
            (children n).

(** The generator after one draw. *)
Definition after_draw (g : Rng) : Rng := fun i => g (S i).

(** ** Answers *)

(** What an answer of the responder is: a non-empty string, bound to a node
    of the tree or taken from the fallback pool [fb]. *)
Definition answer (self : MiniGPT) (fb : Entry) (r : string) : Prop :=
  r <> ""
  /\ ((exists n, In n (preorder (root self)) /\ response n = r)
      \/ In r (responses fb)).

(** ** Sample data *)

(** The knowledge base of the end-to-end scenario. *)
Definition kb_example : KnowledgeBase :=
  [("greeting", mkEntry ["hello"; "hi"] ["Hi there!"]);
   ("fallback", mkEntry [] ["I don't understand."])].

(** A knowledge base whose fallback pool has two responses. *)
Definition kb_two_fallbacks : KnowledgeBase :=
  [("greeting", mkEntry ["hello"; "hi"] ["Hi there!"]);
   ("fallback", mkEntry [] ["I don't understand."; "Could you rephrase that?"])].

(** A generator whose draws are all [k]. *)
Definition rng_const (k : nat) : Rng := fun _ => k.

(** The tree [_build_response_tree] makes of [kb_example]. *)
Definition tree_example : Node :=
  mkNode "ROOT" ""
    [mkNode "greeting" "Hi there!"
       [mkNode "hello" "Hi there!" []; mkNode "hi" "Hi there!" []];
     mkNode "fallback" "I don't understand." []].

(** The tree [_build_response_tree] makes of [kb_two_fallbacks] when every
    draw is 0. *)
Definition tree_two_fallbacks : Node :=
  mkNode "ROOT" ""
    [mkNode "greeting" "Hi there!"
       [mkNode "hello" "Hi there!" []; mkNode "hi" "Hi there!" []];
     mkNode "fallback" "I don't understand." []].

(** A tree with two keyword nodes that score equally on the query "hello". *)
Definition tree_tie : Node :=
  mkNode "ROOT" ""
    [mkNode "salute" "Welcome." [mkNode "hello" "Hello to you." []];
     mkNode "abyss" "Deep." [mkNode "hell" "Hot in here." []]].

(** ** The chat endpoint ([src/app.py]) *)

Module App.

(** [class User(BaseModel)]: the validated body of a chat request. *)
Record User : Type := mkUser {
  message : string;
  role : string;
  conversation_id : option string;
  mode : string
}.

(** A chat message, the [dict] [{"role": ..., "content": ...}], and the
    [dict] a request is answered with: their items in order. *)
Definition Message : Type := list (string * string).

Definition Reply : Type := list (string * option string).

(** [class Conversation] *)
Record Conversation : Type := mkConversation {
  messages : list Message;
  active : bool
}.

(** [Conversation.__init__] *)
Definition Conversation_init : Conversation :=
  mkConversation
    [[("role", "system"); ("content", "You are a helpful assistant.")]] true.

(** [Conversation.end_conversation] *)
Definition end_conversation (self : Conversation) : Conversation :=
  mkConversation (messages self) false.

(** [conversation.messages.append(m)] *)
Definition append_message (conversation : Conversation) (m : Message) : Conversation :=
  mkConversation (messages conversation ++ [m]) (active conversation).

(** The module-level [dict] [conversations]: its items in insertion order.
    A key is a conversation id or [None]. *)
Definition Conversations : Type := list (option string * Conversation).

(** Equality of two keys. *)
Definition key_eqb (a b : option string) : bool :=
  match a, b with
  | Some x, Some y => String.eqb x y
  | None, None => true
  | _, _ => false
  end.

(** [d.get(key)] *)
Fixpoint dict_get (d : Conversations) (key : option string) : option Conversation :=
  match d with
  | [] => None
  | (k, v) :: d' => if key_eqb k key then Some v else dict_get d' key
  end.

(** [key in d] *)
Definition dict_mem (d : Conversations) (key : option string) : bool :=
  match dict_get d key with
  | Some _ => true
  | None => false
  end.

(** [d[key] = value]: the value of a key that is there is replaced where it
    stands, a new key goes to the end. *)
Fixpoint dict_set (d : Conversations) (key : option string) (value : Conversation)
  : Conversations :=
  match d with
  | [] => [(key, value)]
  | (k, v) :: d' =>
      if key_eqb k key then (k, value) :: d' else (k, v) :: dict_set d' key value
  end.

(** What the endpoint can see raised: an exception of [MiniGPT] or of an
    index, an error of the Groq client, an [HTTPException]. *)
Inductive Exc : Type :=
| Builtin (e : exn)
| ClientError (name : string)
| HTTPException (status_code : nat) (detail : string).

Inductive outcome (A : Type) : Type :=
| Return (a : A)
| Throw (e : Exc).

Arguments Return {A} a.
Arguments Throw {A} e.

(** A chunk of a streamed completion: the [delta.content] of each of its
    [choices]. A completion: the chunks the stream yields and the error that
    ends it, if one does (a call that fails at once yields no chunk). *)
Definition Chunk : Type := list (option string).

Record Completion : Type := mkCompletion {
  chunks : list Chunk;
  failure : option Exc
}.

(** The state of the process: the stored conversations, the state of
    [random], and what [logger.error] has written. *)
Record State : Type := mkState {
  conversations : Conversations;
  random : Rng;
  log : list string
}.

(** [logger.error(text)] *)
Definition log_error (text : string) (st : State) : State :=
  mkState (conversations st) (random st) (log st ++ [text]).

(** [chunk.choices[0].delta.content or ""] *)
Definition chunk_text (chunk : Chunk) : outcome string :=
  match chunk with
  | [] => Throw (Builtin IndexError)
  | Some content :: _ => Return content
  | None :: _ => Return ""
  end.

(** [for chunk in completion: response += ...] over the chunks that come. *)
Fixpoint read_chunks (response : string) (cs : list Chunk) : outcome string :=
  match cs with
  | [] => Return response
  | chunk :: cs' =>
      match chunk_text chunk with
      | Return text => read_chunks (response ++ text)%string cs'
      | Throw e => Throw e
      end
  end.

(** The body of the [try] of [query_groq_api] on a given completion. *)
Definition read_completion (completion : Completion) : outcome string :=
  match read_chunks "" (chunks completion) with
  | Return response =>
      match failure completion with
      | Some e => Throw e
      | None => Return response
      end
  | Throw e => Throw e
  end.

(** The text a chunk contributes when it has a choice. *)
Definition first_text (chunk : Chunk) : string :=
  match chunk with
  | Some content :: _ => content
  | _ => ""
  end.

(** The two messages a request of the Groq mode adds to its conversation. *)
Definition user_message (input : User) : Message :=
  [("role", role input); ("content", message input)].

Definition assistant_message (response : string) : Message :=
  [("role", "assistant"); ("content", response)].

(** The initial state of the process, before any request. *)
Definition initial_state (g : Rng) : State := mkState [] g [].

(** The message every conversation starts with. *)
Definition system_message : Message :=
  [("role", "system"); ("content", "You are a helpful assistant.")].

(** A conversation as the endpoint keeps it: active, starting with the
    system message. *)
Definition conversation_ok (c : Conversation) : Prop :=
  active c = true /\ hd_error (messages c) = Some system_message.

(** The invariant of the store: every conversation is active and starts
    with the system message. *)
Definition store_ok (d : Conversations) : Prop :=
  Forall (fun kv => active (snd kv) = true
                    /\ hd_error (messages (snd kv)) = Some system_message) d.

Section Endpoint.

(** The responder built at start-up, the completion the Groq client gives
    for a list of messages, and [str(e)] for an exception. *)
Variable minigpt : MiniGPT.
Variable create : list Message -> Completion.
Variable str : Exc -> string.

(** [query_groq_api] *)
Definition query_groq_api (conversation : Conversation) (st : State)
  : outcome string * State :=
  match read_completion (create (messages conversation)) with
  | Return response => (Return response, st)
  | Throw e =>
      (Throw (HTTPException 500 ("Error querying Groq API: " ++ str e)%string),
       log_error ("Error querying Groq API: " ++ str e)%string st)
  end.

(** [get_or_create_conversation], on the [dict] it reads and updates. *)
Definition get_or_create_conversation
           (conversation_id : option string) (d : Conversations)
  : outcome Conversation * Conversations :=
  let d' := if negb (dict_mem d conversation_id)
            then dict_set d conversation_id Conversation_init
            else d in
  match dict_get d' conversation_id with
  | Some conversation => (Return conversation, d')
  | None => (Throw (Builtin KeyError), d')
  end.

(** The stored conversation [conversation_id] becomes [conversation]: the
    effect of changing the object the [dict] holds under that key. *)
Definition store (conversation_id : option string) (conversation : Conversation)
           (st : State) : State :=
  mkState (dict_set (conversations st) conversation_id conversation)
          (random st) (log st).

(** The body of the [try] of [chat]. When [get_response] raises it has not
    drawn yet (the responder raises before any draw, as proved below), so
    the generator is then as it was. *)
Definition chat_body (input : User) (st : State) : outcome Reply * State :=
  if String.eqb (mode input) "minigpt" then
    match get_response minigpt (message input) (random st) with
    | Ok (response, g) =>
        (Return [("response", Some response);
                 ("conversation_id", conversation_id input)],
         mkState (conversations st) g (log st))
    | Raise e => (Throw (Builtin e), st)
    end
  else
    let '(got, d) := get_or_create_conversation (conversation_id input)
                                                (conversations st) in
    let st1 := mkState d (random st) (log st) in
    match got with
    | Throw e => (Throw e, st1)
    | Return conversation =>
        if negb (active conversation) then
          (Throw (HTTPException 400
                    "Conversation is inactive. Please start a new conversation."),
           st1)
        else
          let conversation1 :=
            append_message conversation
              [("role", role input); ("content", message input)] in
          let st2 := store (conversation_id input) conversation1 st1 in
          match query_groq_api conversation1 st2 with
          | (Return response, st3) =>
              let conversation2 :=
                append_message conversation1
                  [("role", "assistant"); ("content", response)] in
              (Return [("response", Some response);
                       ("conversation_id", conversation_id input)],
               store (conversation_id input) conversation2 st3)
          | (Throw e, st3) => (Throw e, st3)
          end
    end.

(** [chat]: what the body raises is logged and raised again as an
    [HTTPException] with status 500. *)
Definition chat (input : User) (st : State) : outcome Reply * State :=
  match chat_body input st with
  | (Return reply, st') => (Return reply, st')
  | (Throw e, st') =>
      (Throw (HTTPException 500 ("Error processing request: " ++ str e)%string),
       log_error ("Error occurred: " ++ str e)%string st')
  end.

(** The states the process can be in: the initial one, and those a request
    leaves. *)
Inductive reachable : State -> Prop :=
| reach_initial (g : Rng) : reachable (initial_state g)
| reach_chat (input : User) (st : State) :
    reachable st -> reachable (snd (chat input st)).

End Endpoint.

End App.

(** ** Sample data for the endpoint *)

(** A client whose stream for any request is three chunks, the second
    without text, and one whose stream fails after its first chunk. *)
Definition create_hello (_ : list App.Message) : App.Completion :=
  App.mkCompletion [[Some "Hel"]; [None]; [Some "lo"]] None.

Definition create_failing (_ : list App.Message) : App.Completion :=
  App.mkCompletion [[Some "Hel"]] (Some (App.ClientError "APIConnectionError")).

(** A rendering of exceptions as text. *)
Definition str_example (e : App.Exc) : string :=
  match e with
  | App.Builtin KeyError => "'fallback'"
  | App.Builtin IndexError => "list index out of range"
  | App.ClientError name => name
  | App.HTTPException _ detail => detail
  end.

(** A store whose only conversation has been ended. *)
Definition store_ended : App.Conversations :=
  [(Some "c1", App.end_conversation App.Conversation_init)].

(** ** Vocabulary for the properties of the whole responder *)

(** The number of keywords of a knowledge base, all categories together. *)
Definition keyword_count (kb : KnowledgeBase) : nat :=
  list_sum (map (fun item => List.length (keywords (snd item))) kb).

(** The score a node can bring to [best_score]: its score when it has a
    response, nothing otherwise. *)
Definition candidate_score (query_words : list string) (node : Node) : nat :=
  if truthy (response node) then score query_words node else 0.

(** No node of the tree qualifies: every node with a response scores 0. *)
Definition no_candidate (query_words : list string) (tree : Node) : Prop :=
  forall n, In n (preorder tree) -> response n <> "" -> score query_words n = 0.

(** [best] is what a traversal of [tree] may end with: a best score that no
    node with a response exceeds, and as best match a node of the tree that
    has a response and attains it, or nothing when the best score is 0. *)
Definition optimal_match (query_words : list string) (tree : Node) (best : Best) : Prop :=
  (forall m, In m (preorder tree) -> response m <> "" ->
             score query_words m <= snd best)
  /\ match fst best with
     | Some n => In n (preorder tree) /\ response n <> ""
                 /\ score query_words n = snd best /\ 0 < snd best
     | None => snd best = 0
     end.

(** The string the last lines of [get_response] pick. *)
Definition longer (bfs_response dfs_response : string) : string :=
  if String.length bfs_response <? String.length dfs_response
  then dfs_response
  else bfs_response.

(** * Properties *)

(** ** Strings *)

Example lower_ex : lower "Hello WORLD" = "hello world".
Proof. reflexivity. Qed.

Example split_ex : split "  hi   there you " = ["hi"; "there"; "you"].
Proof. reflexivity. Qed.

Example contains_ex :
  contains "ell" "hello" = true /\ contains "hello" "ell" = false
  /\ contains "" "abc" = true.
Proof. repeat split; reflexivity. Qed.

Lemma truthy_true (s : string) : truthy s = true <-> s <> "".
Proof. destruct s; simpl; split; congruence. Qed.

Lemma startswith_spec (p s : string) :
  startswith p s = true <-> exists post, s = (p ++ post)%string.
Proof.
  revert s. induction p as [|a p IH]; intro s; simpl.
  - split; [intros _; exists s; reflexivity | reflexivity].
  - destruct s as [|b s].
    + split; [discriminate | intros [post H]; discriminate].
    + rewrite andb_true_iff, Ascii.eqb_eq, IH. split.
      * intros [-> [post ->]]. exists post. reflexivity.
      * intros [post H]. injection H as -> ->. split; [reflexivity | eauto].
Qed.

Lemma contains_spec (t s : string) :
  contains t s = true <-> is_substring t s.
Proof.
  unfold is_substring. induction s as [|c s IH].
  - simpl. rewrite orb_false_r, startswith_spec. split.
    + intros [post H]. exists "", post. exact H.
    + intros [[|a pre] [post H]]; [exists post; exact H | discriminate].
  - cbn [contains]. rewrite orb_true_iff, startswith_spec, IH. split.
    + intros [[post H] | [pre [post H]]].
      * exists "", post. exact H.
      * exists (String c pre), post. simpl. rewrite H. reflexivity.
    + intros [[|a pre] [post H]].
      * left. exists post. exact H.
      * right. simpl in H. injection H as _ H. eauto.
Qed.

Lemma is_space_lower_char (c : ascii) : is_space (lower_char c) = is_space c.
Proof.
  destruct c as [[] [] [] [] [] [] [] []]; reflexivity.
Qed.

Lemma all_space_lower (s : string) : all_space (lower s) = all_space s.
Proof.
  induction s as [|c s IH]; simpl; [reflexivity|].
  rewrite is_space_lower_char, IH. reflexivity.
Qed.

Lemma split_from_all_space (s w : string) :
  all_space s = true -> split_from w s = if truthy w then [w] else [].
Proof.
  revert w. induction s as [|c s IH]; intros w H; simpl in *; [reflexivity|].
  apply andb_true_iff in H as [Hc Hs]. rewrite Hc.
  destruct (truthy w); rewrite (IH "" Hs); reflexivity.
Qed.

Lemma split_all_space (s : string) : all_space s = true -> split s = [].
Proof. intro H. unfold split. rewrite (split_from_all_space s "" H). reflexivity. Qed.

Lemma string_app_assoc (a b c : string) :
  ((a ++ b) ++ c = a ++ (b ++ c))%string.
Proof. induction a as [|x a IH]; simpl; [reflexivity | rewrite IH; reflexivity]. Qed.

Lemma string_app_nil_r (a : string) : (a ++ "")%string = a.
Proof. induction a as [|x a IH]; simpl; [reflexivity | rewrite IH; reflexivity]. Qed.

Lemma truthy_app_char (w : string) (c : ascii) :
  truthy (w ++ String c "")%string = true.
Proof. destruct w; reflexivity. Qed.

Lemma no_space_app (a b : string) :
  no_space (a ++ b)%string = no_space a && no_space b.
Proof.
  induction a as [|x a IH]; simpl; [reflexivity|].
  rewrite IH, andb_assoc. reflexivity.
Qed.

(** Leading whitespace is skipped. *)
Lemma split_from_skip (ws s : string) :
  all_space ws = true -> split_from "" (ws ++ s)%string = split_from "" s.
Proof.
  induction ws as [|c ws IH]; simpl; intro H; [reflexivity|].
  apply andb_true_iff in H as [Hc Hw]. rewrite Hc. apply IH. exact Hw.
Qed.

(** A stretch free of whitespace is added to the word being read. *)
Lemma split_from_word (w s acc : string) :
  no_space w = true ->
  split_from acc (w ++ s)%string = split_from (acc ++ w)%string s.
Proof.
  revert acc. induction w as [|c w IH]; simpl; intros acc H.
  - rewrite string_app_nil_r. reflexivity.
  - apply andb_true_iff in H as [Hc Hw]. apply negb_true_iff in Hc. rewrite Hc.
    rewrite (IH _ Hw), string_app_assoc. reflexivity.
Qed.

(** A word in progress is closed at a boundary. *)
Lemma split_from_boundary (w rest : string) :
  w <> "" -> at_boundary rest ->
  split_from w rest = w :: split_from "" rest.
Proof.
  intros Hw [-> | (c & rest' & -> & Hc)]; apply truthy_true in Hw; simpl.
  - rewrite Hw. reflexivity.
  - rewrite Hc, Hw. reflexivity.
Qed.

(** The words of a string are what [split] returns, and nothing else is. *)
Lemma tokenization_unique (s : string) (words : list string) :
  tokenization s words -> words = split s.
Proof.
  unfold split. induction 1 as [s H | ws w rest words Hws Hw Hn Hb _ IH].
  - rewrite (split_from_all_space s "" H). reflexivity.
  - rewrite (split_from_skip ws _ Hws), (split_from_word w rest "" Hn). simpl.
    rewrite (split_from_boundary w rest Hw Hb), IH. reflexivity.
Qed.

Lemma tokenization_space (c : ascii) (s : string) (words : list string) :
  is_space c = true -> tokenization s words -> tokenization (String c s) words.
Proof.
  intros Hc H. destruct H as [s H | ws w rest words Hws Hw Hn Hb Ht].
  - apply tok_blank. simpl. rewrite Hc, H. reflexivity.
  - apply (tok_word (String c ws) w rest words); auto.
    simpl. rewrite Hc, Hws. reflexivity.
Qed.

Lemma tokenization_split_from (s : string) :
  tokenization s (split_from "" s)
  /\ forall acc, acc <> "" -> no_space acc = true ->
                 tokenization (acc ++ s)%string (split_from acc s).
Proof.
  induction s as [|c s [IH1 IH2]].
  - split.
    + apply tok_blank. reflexivity.
    + intros acc Ha Hn. simpl. apply truthy_true in Ha as Ht. rewrite Ht.
      apply (tok_word "" acc "" []); auto.
      * left. reflexivity.
      * apply tok_blank. reflexivity.
  - destruct (is_space c) eqn:Hc.
    + assert (H1 : tokenization (String c s) (split_from "" s))
        by (apply tokenization_space; assumption).
      split.
      * simpl. rewrite Hc. exact H1.
      * intros acc Ha Hn. simpl. apply truthy_true in Ha as Ht. rewrite Hc, Ht.
        apply (tok_word "" acc (String c s) (split_from "" s)); auto.
        right. exists c, s. auto.
    + assert (Hn1 : no_space (String c "") = true) by (simpl; rewrite Hc; reflexivity).
      split.
      * simpl. rewrite Hc. apply (IH2 (String c "")); [discriminate | exact Hn1].
      * intros acc Ha Hn. simpl. rewrite Hc.
        replace (acc ++ String c s)%string with ((acc ++ String c "") ++ s)%string
          by (rewrite string_app_assoc; reflexivity).
        apply IH2.
        -- destruct acc; discriminate.
        -- rewrite no_space_app, Hn, Hn1. reflexivity.
Qed.

Lemma tokenization_split (s : string) : tokenization s (split s).
Proof. apply tokenization_split_from. Qed.

Lemma tokenization_iff (s : string) (words : list string) :
  tokenization s words <-> words = split s.
Proof.
  split; [apply tokenization_unique | intros ->; apply tokenization_split].
Qed.

(** ** The work lists and the visit orders *)

Lemma enqueue_children_app (queue : list Node) (node : Node) :
  enqueue_children queue node = queue ++ children node.
Proof.
  unfold enqueue_children. generalize (children node) as cs. intro cs.
  revert queue. induction cs as [|c cs IH]; intro queue; simpl.
  - symmetry. apply app_nil_r.
  - rewrite IH, <- app_assoc. reflexivity.
Qed.

Lemma push_children_app (stack : list Node) (node : Node) :
  push_children stack node = children node ++ stack.
Proof.
  unfold push_children.
  assert (E : forall l st : list Node,
             fold_left (fun st child => child :: st) l st = rev l ++ st).
  { induction l as [|c l IH]; intro st; simpl; [reflexivity|].
    rewrite IH, <- app_assoc. reflexivity. }
  rewrite E, rev_involutive. reflexivity.
Qed.

Lemma preorder_unfold (n : Node) :
  preorder n = n :: flat_map preorder (children n).
Proof. destruct n; reflexivity. Qed.

(** Each loop applies its body to the nodes of its visit order, in order. *)
Lemma bfs_loop_visits (query_words : list string) (queue : list Node) (best : Best) :
  bfs_loop query_words queue best
  = fold_left (update_best query_words) (bfs_visits queue) best.
Proof.
  funelim (bfs_loop query_words queue best); simp bfs_visits; simpl; auto.
Qed.

Lemma dfs_loop_visits (query_words : list string) (stack : list Node) (best : Best) :
  dfs_loop query_words stack best
  = fold_left (update_best query_words) (dfs_visits stack) best.
Proof.
  funelim (dfs_loop query_words stack best); simp dfs_visits; simpl; auto.
Qed.

Lemma dfs_visits_preorder (stack : list Node) :
  dfs_visits stack = flat_map preorder stack.
Proof.
  funelim (dfs_visits stack); simpl; [reflexivity|].
  rewrite H, push_children_app, flat_map_app, preorder_unfold. reflexivity.
Qed.

Lemma bfs_visits_perm (queue : list Node) :
  Permutation (bfs_visits queue) (flat_map preorder queue).
Proof.
  funelim (bfs_visits queue); simpl; [constructor|].
  rewrite preorder_unfold. simpl. constructor.
  rewrite H, enqueue_children_app, flat_map_app. apply Permutation_app_comm.
Qed.

Lemma visits_root_perm (n : Node) :
  Permutation (bfs_visits [n]) (dfs_visits [n]).
Proof.
  rewrite dfs_visits_preorder. apply bfs_visits_perm.
Qed.

(** ** Scoring *)

Lemma score_length (query_words : list string) (node : Node) :
  score query_words node = List.length (filter (word_matches node) query_words).
Proof.
  unfold score. induction (filter (word_matches node) query_words) as [|w l IH];
    simpl; [reflexivity | rewrite IH; reflexivity].
Qed.

Lemma score_le (query_words : list string) (node : Node) :
  score query_words node <= List.length query_words.
Proof. rewrite score_length. apply filter_length_le. Qed.

Lemma score_nil (node : Node) : score [] node = 0.
Proof. reflexivity. Qed.

Lemma word_matches_spec (node : Node) (word : string) :
  word_matches node word = true <-> token_matches (keyword node) word.
Proof.
  unfold word_matches, token_matches.
  rewrite orb_true_iff, !contains_spec. reflexivity.
Qed.

(** ** The candidate rule along a visit order *)

Lemma update_best_eq (query_words : list string) (best : Best) (node : Node) :
  update_best query_words best node
  = if (snd best <? score query_words node) && truthy (response node)
    then (Some node, score query_words node)
    else best.
Proof. destruct best as [bm bs]. reflexivity. Qed.

Lemma update_best_taken (query_words : list string) (best : Best) (node : Node) :
  response node <> "" -> snd best < score query_words node ->
  update_best query_words best node = (Some node, score query_words node).
Proof.
  intros Hr Hs. rewrite update_best_eq.
  apply truthy_true in Hr. apply Nat.ltb_lt in Hs. rewrite Hr, Hs. reflexivity.
Qed.

Lemma update_best_kept (query_words : list string) (best : Best) (node : Node) :
  response node = "" \/ score query_words node <= snd best ->
  update_best query_words best node = best.
Proof.
  intros H. rewrite update_best_eq.
  destruct H as [H | H].
  - rewrite H. simpl. rewrite andb_false_r. reflexivity.
  - apply Nat.ltb_ge in H. rewrite H. reflexivity.
Qed.

Lemma update_best_changed (query_words : list string) (best : Best) (node : Node) :
  update_best query_words best node <> best ->
  response node <> "" /\ snd best < score query_words node.
Proof.
  intros H. rewrite update_best_eq in H.
  destruct (snd best <? score query_words node) eqn:Hs;
    destruct (truthy (response node)) eqn:Hr; simpl in H; try congruence.
  split; [apply truthy_true; exact Hr | apply Nat.ltb_lt; exact Hs].
Qed.

Lemma update_best_mono (query_words : list string) (best : Best) (node : Node) :
  snd best <= snd (update_best query_words best node).
Proof.
  rewrite update_best_eq.
  destruct (snd best <? score query_words node) eqn:Hs; simpl; [|lia].
  apply Nat.ltb_lt in Hs. destruct (truthy (response node)); simpl; lia.
Qed.

(** After a visit, the best score is at least the score of the visited node
    when that node has a response. *)
Lemma update_best_covers (query_words : list string) (best : Best) (node : Node) :
  response node <> "" ->
  score query_words node <= snd (update_best query_words best node).
Proof.
  intro Hr. rewrite update_best_eq. apply truthy_true in Hr. rewrite Hr, andb_true_r.
  destruct (snd best <? score query_words node) eqn:Hs; simpl; [lia|].
  apply Nat.ltb_ge in Hs. exact Hs.
Qed.

Lemma fold_best_mono (query_words : list string) (l : list Node) (best : Best) :
  snd best <= snd (fold_left (update_best query_words) l best).
Proof.
  revert best. induction l as [|n l IH]; intro best; simpl; [lia|].
  etransitivity; [apply (update_best_mono query_words best n) | apply IH].
Qed.

Lemma fold_best_covers (query_words : list string) (l : list Node) (best : Best) (a : Node) :
  In a l -> response a <> "" ->
  score query_words a <= snd (fold_left (update_best query_words) l best).
Proof.
  revert best. induction l as [|n l IH]; intros best Hin Hr; simpl; [destruct Hin|].
  destruct Hin as [-> | Hin]; [|apply IH; assumption].
  etransitivity; [apply (update_best_covers query_words best a Hr) | apply fold_best_mono].
Qed.

Lemma fold_best_kept (query_words : list string) (l : list Node) (best : Best) :
  (forall m, In m l -> score query_words m <= snd best) ->
  fold_left (update_best query_words) l best = best.
Proof.
  induction l as [|n l IH]; intro H; simpl; [reflexivity|].
  rewrite update_best_kept by (right; apply H; left; reflexivity).
  apply IH. intros m Hm. apply H. right. exact Hm.
Qed.

Lemma fold_best_below (query_words : list string) (l : list Node) (best : Best) (k : nat) :
  (forall m, In m l -> score query_words m < k) -> snd best < k ->
  snd (fold_left (update_best query_words) l best) < k.
Proof.
  revert best. induction l as [|n l IH]; intros best H Hb; simpl; [exact Hb|].
  apply IH; [intros m Hm; apply H; right; exact Hm|].
  rewrite update_best_eq.
  destruct ((snd best <? score query_words n) && truthy (response n)); simpl;
    [apply H; left; reflexivity | exact Hb].
Qed.

(** What a traversal started with no match ends with: nothing, or a node of
    the visit order that has a response and a positive score. *)
Lemma fold_best_result (query_words : list string) (l : list Node) (best : Best) :
  fold_left (update_best query_words) l best = best
  \/ exists n, In n l /\ response n <> "" /\ snd best < score query_words n
               /\ fold_left (update_best query_words) l best
                  = (Some n, score query_words n).
Proof.
  revert best. induction l as [|n l IH]; intro best; simpl; [left; reflexivity|].
  destruct (IH (update_best query_words best n)) as [E | (m & Hm & Hr & Hs & E)].
  - rewrite E. rewrite update_best_eq.
    destruct (snd best <? score query_words n) eqn:Hs;
      destruct (truthy (response n)) eqn:Hr; simpl; try (left; reflexivity).
    right. exists n. repeat split; auto.
    + apply truthy_true; exact Hr.
    + apply Nat.ltb_lt; exact Hs.
  - right. exists m. repeat split; auto.
    pose proof (update_best_mono query_words best n). lia.
Qed.

(** A node that alone attains the greatest score, with a response and a
    positive score, is the match of any traversal that visits it once. *)
Lemma fold_best_unique_max (query_words : list string) (l1 l2 : list Node) (n : Node) :
  (forall m, In m (l1 ++ l2) -> score query_words m < score query_words n) ->
  0 < score query_words n ->
  response n <> "" ->
  fold_left (update_best query_words) (l1 ++ n :: l2) (None, 0)
  = (Some n, score query_words n).
Proof.
  intros Hmax Hpos Hr. rewrite fold_left_app. simpl.
  rewrite update_best_taken; [|exact Hr|].
  - apply fold_best_kept. intros m Hm. simpl.
    apply Nat.lt_le_incl, Hmax, in_or_app. right. exact Hm.
  - apply fold_best_below; [|exact Hpos].
    intros m Hm. apply Hmax, in_or_app. left. exact Hm.
Qed.

(** ** Draws *)

Lemma choice_ok {A : Type} (seq : list A) (d : A) (g : Rng) :
  seq <> [] ->
  choice seq g = Ok (nth (g 0 mod List.length seq) seq d, after_draw g).
Proof.
  intro Hne. destruct seq as [|a l]; [congruence|].
  unfold choice, bind, randbelow, getitem.
  set (n := List.length (a :: l)).
  assert (Hlt : g 0 mod n < n) by (apply Nat.mod_upper_bound; discriminate).
  destruct (nth_error (a :: l) (g 0 mod n)) as [x|] eqn:E.
  - rewrite (nth_error_nth _ _ d E). reflexivity.
  - apply nth_error_None in E. fold n in E. lia.
Qed.

Lemma choice_inv {A : Type} (seq : list A) (g g' : Rng) (a : A) :
  choice seq g = Ok (a, g') -> In a seq /\ g' = after_draw g.
Proof.
  intro H. destruct seq as [|x l]; [discriminate|].
  pose proof (choice_ok (x :: l) x g ltac:(discriminate)) as E.
  assert (Hin : In (nth (g 0 mod List.length (x :: l)) (x :: l) x) (x :: l))
    by (apply nth_In, Nat.mod_upper_bound; discriminate).
  rewrite E in H.
  assert (Ha : a = nth (g 0 mod List.length (x :: l)) (x :: l) x) by congruence.
  assert (Hg : g' = after_draw g) by congruence.
  rewrite Ha, Hg. split; [exact Hin | reflexivity].
Qed.

Lemma choice_nil {A : Type} (g : Rng) : choice (@nil A) g = Raise IndexError.
Proof. reflexivity. Qed.

(** ** The built tree *)

Lemma build_keywords_inv (data : Entry) (kws : list string) (cn n : Node) (g g' : Rng) :
  for_each kws
    (fun category_node keyword =>
       r' <- choice (responses data) ;;
       ret (append_child category_node (mkNode keyword r' [])))
    cn g = Ok (n, g') ->
  keyword n = keyword cn /\ response n = response cn
  /\ exists ks, children n = children cn ++ ks
                /\ map keyword ks = kws
                /\ Forall (fun k => In (response k) (responses data) /\ children k = []) ks.
Proof.
  revert cn g. induction kws as [|kw kws IH]; intros cn g H; simpl in H.
  - injection H as <- <-. repeat split. exists []. rewrite app_nil_r. auto.
  - unfold bind at 1 in H. unfold bind at 1 in H.
    destruct (choice (responses data) g) as [[r g1]|e] eqn:Ec; [|discriminate].
    apply choice_inv in Ec as [Hin ->]. unfold ret at 1 in H.
    apply IH in H as (Hk & Hr & ks & Hc & Hm & Hf). simpl in *.
    repeat split; auto.
    exists (mkNode kw r [] :: ks). rewrite Hc, <- app_assoc. simpl.
    repeat split; [congruence|]. constructor; auto.
Qed.

Lemma build_category_inv (item : string * Entry) (n : Node) (g g' : Rng) :
  build_category item g = Ok (n, g') -> category_node_of item n.
Proof.
  destruct item as [category data]. unfold build_category, bind at 1.
  destruct (choice (responses data) g) as [[r g1]|e] eqn:Ec; [|discriminate].
  apply choice_inv in Ec as [Hin ->]. intro H.
  apply build_keywords_inv in H as (Hk & Hr & ks & Hc & Hm & Hf). simpl in *.
  unfold category_node_of. simpl. rewrite Hk, Hr, Hc. auto.
Qed.

Lemma build_categories_inv (kb : KnowledgeBase) (r0 r1 : Node) (g g' : Rng) :
  for_each kb
    (fun root item =>
       category_node <- build_category item ;;
       ret (append_child root category_node))
    r0 g = Ok (r1, g') ->
  keyword r1 = keyword r0 /\ response r1 = response r0
  /\ exists cs, children r1 = children r0 ++ cs /\ Forall2 category_node_of kb cs.
Proof.
  revert r0 g. induction kb as [|item kb IH]; intros r0 g H; simpl in H.
  - injection H as <- <-. repeat split. exists []. rewrite app_nil_r. auto.
  - unfold bind at 1 in H. unfold bind at 1 in H.
    destruct (build_category item g) as [[cn g1]|e] eqn:Ec; [|discriminate].
    apply build_category_inv in Ec. unfold ret at 1 in H.
    apply IH in H as (Hk & Hr & cs & Hc & Hf). simpl in *.
    repeat split; auto.
    exists (cn :: cs). rewrite Hc, <- app_assoc. simpl. auto.
Qed.

Lemma build_response_tree_inv (kb : KnowledgeBase) (root : Node) (g g' : Rng) :
  _build_response_tree kb g = Ok (root, g') ->
  keyword root = "ROOT" /\ response root = ""
  /\ Forall2 category_node_of kb (children root).
Proof.
  intro H. apply build_categories_inv in H as (Hk & Hr & cs & Hc & Hf).
  simpl in *. rewrite Hc. auto.
Qed.

Lemma category_labels (kb : KnowledgeBase) (cs : list Node) :
  Forall2 category_node_of kb cs -> map keyword cs = map fst kb.
Proof.
  induction 1 as [|item n kb cs Hn _ IH]; simpl; [reflexivity|].
  destruct Hn as [-> _]. rewrite IH. reflexivity.
Qed.

Lemma build_category_total (item : string * Entry) (g : Rng) :
  responses (snd item) <> [] ->
  exists n g', build_category item g = Ok (n, g').
Proof.
  destruct item as [category data]. simpl. intro Hne.
  unfold build_category, bind at 1.
  rewrite (choice_ok (responses data) "" g Hne).
  generalize (mkNode category (nth (g 0 mod List.length (responses data))
                                   (responses data) "") []) as cn.
  generalize (after_draw g) as g1.
  induction (keywords data) as [|kw kws IH]; intros g1 cn; simpl.
  - eexists _, _. reflexivity.
  - unfold bind at 1. unfold bind at 1.
    rewrite (choice_ok (responses data) "" g1 Hne). unfold ret at 1. apply IH.
Qed.

Lemma build_response_tree_total (kb : KnowledgeBase) (g : Rng) :
  Forall (fun item => responses (snd item) <> []) kb ->
  exists root g', _build_response_tree kb g = Ok (root, g').
Proof.
  unfold _build_response_tree. generalize (mkNode "ROOT" "" []) as r0. revert g.
  induction kb as [|item kb IH]; intros g r0 H; simpl.
  - eexists _, _. reflexivity.
  - inversion H as [|? ? Hitem Hkb]; subst.
    destruct (build_category_total item g Hitem) as (cn & g1 & E).
    unfold bind at 1. unfold bind at 1. rewrite E. unfold ret at 1.
    apply IH. exact Hkb.
Qed.

(** ** The end of a search *)

Lemma fallback_first_ok (self : MiniGPT) (fb : Entry) (r0 : string) (rest : list string)
      (g : Rng) :
  find_key (knowledge_base self) "fallback" = Some fb ->
  responses fb = r0 :: rest ->
  fallback_first self g = Ok (r0, g).
Proof.
  intros Hf Hr. unfold fallback_first, bind, lookup. rewrite Hf. unfold ret at 1.
  unfold getitem. rewrite Hr. reflexivity.
Qed.

Lemma fallback_choice_ok (self : MiniGPT) (fb : Entry) (g : Rng) :
  find_key (knowledge_base self) "fallback" = Some fb ->
  responses fb <> [] ->
  fallback_choice self g
  = Ok (nth (g 0 mod List.length (responses fb)) (responses fb) "", after_draw g).
Proof.
  intros Hf Hr. unfold fallback_choice, bind, lookup. rewrite Hf. unfold ret at 1.
  apply choice_ok. exact Hr.
Qed.

Lemma conclude_no_match (self : MiniGPT) (best_match : option Node) :
  conclude self (best_match, 0) = fallback_choice self.
Proof. destruct best_match; reflexivity. Qed.

Lemma conclude_match (self : MiniGPT) (n : Node) (k : nat) (g : Rng) :
  0 < k -> conclude self (Some n, k) g = Ok (response n, g).
Proof.
  intro Hk. unfold conclude. apply Nat.ltb_lt in Hk. rewrite Hk. reflexivity.
Qed.

Lemma search_nonempty_bfs (self : MiniGPT) (query : string) :
  query <> "" ->
  _bfs_search self query
  = conclude self
      (fold_left (update_best (query_words_of query)) (bfs_visits [root self]) (None, 0)).
Proof.
  intro Hq. unfold _bfs_search. apply truthy_true in Hq. rewrite Hq. simpl.
  rewrite bfs_loop_visits. reflexivity.
Qed.

Lemma search_nonempty_dfs (self : MiniGPT) (query : string) :
  query <> "" ->
  _dfs_search self query
  = conclude self
      (fold_left (update_best (query_words_of query)) (dfs_visits [root self]) (None, 0)).
Proof.
  intro Hq. unfold _dfs_search. apply truthy_true in Hq. rewrite Hq. simpl.
  rewrite dfs_loop_visits. reflexivity.
Qed.

(** The two ways a search over a visit order ends: with the response of a
    visited node that has one and scores above zero, the generator
    untouched; or, no such node existing, with a draw from the fallback
    pool. *)
Lemma conclude_fold (self : MiniGPT) (query_words : list string) (l : list Node) (g : Rng) :
  (exists n, In n l /\ response n <> "" /\ 0 < score query_words n
             /\ conclude self (fold_left (update_best query_words) l (None, 0)) g
                = Ok (response n, g))
  \/ ((forall n, In n l -> response n <> "" -> score query_words n = 0)
      /\ conclude self (fold_left (update_best query_words) l (None, 0)) g
         = fallback_choice self g).
Proof.
  destruct (fold_best_result query_words l (None, 0)) as [E | (n & Hin & Hr & Hs & E)].
  - right. split.
    + intros n Hin Hr.
      pose proof (fold_best_covers query_words l (None, 0) n Hin Hr) as H.
      rewrite E in H. simpl in H. lia.
    + rewrite E. reflexivity.
  - left. exists n. simpl in Hs. repeat split; auto.
    rewrite E. apply conclude_match. exact Hs.
Qed.

(** ** The response tree holds every category *)

(** C1, as the code has it: for every knowledge base with distinct category
    names in which every category has a response, the builder returns a
    tree whose root is the synthetic [ROOT] and whose children are the
    category nodes of all the categories, in the order of the knowledge
    base: exactly one per category, the [fallback] category included. So a
    knowledge base with a [fallback] category yields a node labelled
    [fallback] under the root. *)
Theorem tree_has_one_node_per_category (kb : KnowledgeBase) (g : Rng) :
  NoDup (map fst kb) ->
  Forall (fun item => responses (snd item) <> []) kb ->
  exists root g',
    _build_response_tree kb g = Ok (root, g')
    /\ keyword root = "ROOT" /\ response root = ""
    /\ Forall2 category_node_of kb (children root)
    /\ (forall c, In c (map fst kb) ->
                  count_occ string_dec (map keyword (children root)) c = 1)
    /\ (forall c, In c (map keyword (children root)) -> In c (map fst kb))
    /\ (In "fallback" (map fst kb) ->
        exists n, In n (children root) /\ keyword n = "fallback").
Proof.
  intros Hnd Hne.
  destruct (build_response_tree_total kb g Hne) as (root & g' & E).
  exists root, g'. split; [exact E|].
  destruct (build_response_tree_inv kb root g g' E) as (Hk & Hr & Hf).
  pose proof (category_labels kb (children root) Hf) as Hl.
  repeat split; auto.
  - intros c Hc. rewrite Hl. apply NoDup_count_occ'; assumption.
  - intros c Hc. rewrite <- Hl. exact Hc.
  - intro Hfb. rewrite <- Hl in Hfb. apply in_map_iff in Hfb as (n & Hn & Hin).
    exists n. auto.
Qed.

Lemma tree_has_one_node_per_category_witness :
  exists root g',
    _build_response_tree kb_example (rng_const 0) = Ok (root, g')
    /\ keyword root = "ROOT" /\ response root = ""
    /\ Forall2 category_node_of kb_example (children root)
    /\ (forall c, In c (map fst kb_example) ->
                  count_occ string_dec (map keyword (children root)) c = 1)
    /\ (forall c, In c (map keyword (children root)) -> In c (map fst kb_example))
    /\ (In "fallback" (map fst kb_example) ->
        exists n, In n (children root) /\ keyword n = "fallback").
Proof.
  apply (tree_has_one_node_per_category kb_example (rng_const 0)).
  - repeat constructor; simpl; intuition discriminate.
  - repeat constructor; simpl; discriminate.
Defined.

(** C1, as the specification states it, fails on the knowledge base of the
    end-to-end scenario: the built tree has a [fallback] node under the
    root, and the query "fallback" is matched by that node in both
    traversals, with score 1. *)
Lemma fallback_node_in_tree_counterexample :
  _build_response_tree kb_example (rng_const 0) = Ok (tree_example, rng_const 0)
  /\ In (mkNode "fallback" "I don't understand." []) (children tree_example)
  /\ bfs_loop (query_words_of "fallback") [tree_example] (None, 0)
     = (Some (mkNode "fallback" "I don't understand." []), 1)
  /\ dfs_loop (query_words_of "fallback") [tree_example] (None, 0)
     = (Some (mkNode "fallback" "I don't understand." []), 1).
Proof.
  repeat split; try (vm_compute; reflexivity).
  simpl. right. left. reflexivity.
Qed.

(** ** The empty query *)

(** C3: on the empty query each strategy returns the response at index 0 of
    the fallback pool, whatever the tree and whatever the state of the
    generator, which it leaves untouched. *)
Theorem empty_query_short_circuit
        (kb : KnowledgeBase) (tree : Node) (fb : Entry) (r0 : string)
        (rest : list string) (g : Rng) :
  find_key kb "fallback" = Some fb ->
  responses fb = r0 :: rest ->
  _bfs_search (mkMiniGPT kb tree) "" g = Ok (r0, g)
  /\ _dfs_search (mkMiniGPT kb tree) "" g = Ok (r0, g).
Proof.
  intros Hf Hr. split.
  - unfold _bfs_search. simpl. apply (fallback_first_ok (mkMiniGPT kb tree) fb r0 rest g Hf Hr).
  - unfold _dfs_search. simpl. apply (fallback_first_ok (mkMiniGPT kb tree) fb r0 rest g Hf Hr).
Qed.

Lemma empty_query_short_circuit_witness :
  _bfs_search (mkMiniGPT kb_two_fallbacks tree_two_fallbacks) "" (rng_const 1)
  = Ok ("I don't understand.", rng_const 1)
  /\ _dfs_search (mkMiniGPT kb_two_fallbacks tree_two_fallbacks) "" (rng_const 1)
     = Ok ("I don't understand.", rng_const 1).
Proof.
  apply (empty_query_short_circuit kb_two_fallbacks tree_two_fallbacks
           (mkEntry [] ["I don't understand."; "Could you rephrase that?"])
           "I don't understand." ["Could you rephrase that?"] (rng_const 1));
    reflexivity.
Defined.

(** ** Reconciliation *)

(** C6: [get_response] runs the breadth-first strategy, then the depth-first
    one, and returns the depth-first result if it is strictly longer, the
    breadth-first result otherwise. *)
Theorem get_response_prefers_longer
        (self : MiniGPT) (query bfs_response dfs_response : string) (g g1 g2 : Rng) :
  _bfs_search self query g = Ok (bfs_response, g1) ->
  _dfs_search self query g1 = Ok (dfs_response, g2) ->
  get_response self query g
  = Ok ((if String.length bfs_response <? String.length dfs_response
         then dfs_response else bfs_response), g2).
Proof.
  intros Hb Hd. unfold get_response, bind. rewrite Hb, Hd.
  destruct (String.length bfs_response <? String.length dfs_response); reflexivity.
Qed.

Lemma get_response_prefers_longer_witness :
  get_response (mkMiniGPT kb_two_fallbacks tree_two_fallbacks) "xyzzy"
               (fun i => i)
  = Ok ("Could you rephrase that?", fun i => S (S i)).
Proof.
  apply (get_response_prefers_longer
           (mkMiniGPT kb_two_fallbacks tree_two_fallbacks) "xyzzy"
           "I don't understand." "Could you rephrase that?"
           (fun i => i) (fun i => S i) (fun i => S (S i)));
    vm_compute; reflexivity.
Defined.

(** ** The depth-first order *)

(** C7: the depth-first loop pops the top of its stack and pushes the
    children of the popped node last child first, which leaves them on the
    stack first child on top; started on the root alone it visits the nodes
    of the tree in preorder, and its result is the candidate rule applied
    along the preorder. *)
Theorem dfs_visits_in_preorder (query_words : list string) (tree : Node) :
  (forall stack node, push_children stack node = children node ++ stack)
  /\ (forall node stack,
         dfs_visits (node :: stack) = node :: dfs_visits (children node ++ stack))
  /\ dfs_visits [tree] = preorder tree
  /\ (forall best,
         dfs_loop query_words [tree] best
         = fold_left (update_best query_words) (preorder tree) best).
Proof.
  split; [exact push_children_app|]. split; [|split].
  - intros node stack. simp dfs_visits. rewrite push_children_app. reflexivity.
  - rewrite dfs_visits_preorder. simpl. apply app_nil_r.
  - intro best. rewrite dfs_loop_visits, dfs_visits_preorder. simpl.
    rewrite app_nil_r. reflexivity.
Qed.

(** ** The candidate rule and ties *)

(** C4: in both strategies the accumulators change at a visited node only if
    the node has a response and scores strictly above the best score so
    far, and then the node becomes the best match; both loops apply this
    rule along their visit order. Consequently, if [a] is visited before
    [b], has a response and the same score as [b], then [b] does not
    replace the best match; in particular when [a] is the best match and
    nothing between them scores higher, [a] is still the best match after
    [b]. *)
Theorem first_found_wins_on_ties
        (query_words : list string) (tree : Node)
        (visits pre mid post : list Node) (a b : Node) :
  visits = bfs_visits [tree] \/ visits = dfs_visits [tree] ->
  visits = pre ++ a :: mid ++ b :: post ->
  response a <> "" ->
  score query_words b = score query_words a ->
  let before_b := fold_left (update_best query_words) (pre ++ a :: mid) (None, 0) in
  (forall best n,
      update_best query_words best n <> best ->
      response n <> "" /\ snd best < score query_words n)
  /\ (forall best n,
         response n <> "" -> snd best < score query_words n ->
         update_best query_words best n = (Some n, score query_words n))
  /\ bfs_loop query_words [tree] (None, 0)
     = fold_left (update_best query_words) (bfs_visits [tree]) (None, 0)
  /\ dfs_loop query_words [tree] (None, 0)
     = fold_left (update_best query_words) (dfs_visits [tree]) (None, 0)
  /\ update_best query_words before_b b = before_b
  /\ (fold_left (update_best query_words) (pre ++ [a]) (None, 0)
      = (Some a, score query_words a) ->
      (forall m, In m mid -> score query_words m <= score query_words a) ->
      update_best query_words before_b b = (Some a, score query_words a)).
Proof.
  intros _ _ Hr Hs before_b.
  split; [intros best n; apply update_best_changed|].
  split; [intros best n; apply update_best_taken|].
  split; [apply bfs_loop_visits|]. split; [apply dfs_loop_visits|].
  assert (Hkeep : update_best query_words before_b b = before_b).
  { apply update_best_kept. right. rewrite Hs. unfold before_b.
    apply fold_best_covers; [|exact Hr]. apply in_or_app. right. left. reflexivity. }
  split; [exact Hkeep|].
  intros Ha Hmid. rewrite Hkeep. unfold before_b.
  replace (pre ++ a :: mid) with ((pre ++ [a]) ++ mid)
    by (rewrite <- app_assoc; reflexivity).
  rewrite fold_left_app, Ha. apply fold_best_kept. exact Hmid.
Qed.

Lemma first_found_wins_on_ties_witness :
  let query_words := query_words_of "hello" in
  let a := mkNode "hello" "Hello to you." [] in
  let b := mkNode "hell" "Hot in here." [] in
  let pre := [tree_tie; mkNode "salute" "Welcome." [a]] in
  let mid := [mkNode "abyss" "Deep." [b]] in
  dfs_visits [tree_tie] = pre ++ a :: mid ++ b :: []
  /\ score query_words b = 1 /\ score query_words a = 1
  /\ update_best query_words
       (fold_left (update_best query_words) (pre ++ a :: mid) (None, 0)) b
     = (Some a, 1).
Proof.
  intros query_words a b pre mid.
  assert (Hv : dfs_visits [tree_tie] = pre ++ a :: mid ++ b :: [])
    by (vm_compute; reflexivity).
  split; [exact Hv|]. split; [vm_compute; reflexivity|].
  split; [vm_compute; reflexivity|].
  assert (Hs : score query_words b = score query_words a)
    by (vm_compute; reflexivity).
  assert (Hr : response a <> "") by discriminate.
  destruct (first_found_wins_on_ties query_words tree_tie
              (dfs_visits [tree_tie]) pre mid [] a b
              (or_intror eq_refl) Hv Hr Hs) as (_ & _ & _ & _ & _ & H).
  apply H.
  - vm_compute; reflexivity.
  - intros m [<- | []]. vm_compute. lia.
Defined.

(** ** The score counts the distinct matching tokens *)

Lemma query_words_matching (query : string) (node : Node) :
  distinct_matching_tokens query node
    (filter (word_matches node) (query_words_of query)).
Proof.
  split.
  - apply NoDup_filter, NoDup_nodup.
  - intro t. rewrite filter_In. unfold query_words_of. rewrite nodup_In.
    rewrite word_matches_spec. split; intros [Ht Hm]; (split; [|exact Hm]).
    + exists (split (lower query)). split; [apply tokenization_split | exact Ht].
    + destruct Ht as (words & Hw & Ht).
      apply tokenization_unique in Hw. rewrite <- Hw. exact Ht.
Qed.

(** C5: the score of a node is the number of distinct tokens of the
    lowercased query that are contained in the lowercased label or contain
    it; whichever way and however often a token matches it counts once, so
    the score never exceeds the number of distinct tokens. *)
Theorem score_counts_distinct_matching_tokens
        (query : string) (node : Node) (toks : list string) :
  distinct_matching_tokens query node toks ->
  score (query_words_of query) node = List.length toks
  /\ score (query_words_of query) node <= List.length (query_words_of query).
Proof.
  intros [Hnd Hin]. split; [|apply score_le].
  rewrite score_length. apply Permutation_length.
  destruct (query_words_matching query node) as [Hnd' Hin'].
  apply NoDup_Permutation; auto.
  intro t. rewrite Hin, Hin'. reflexivity.
Qed.

Lemma score_counts_distinct_matching_tokens_witness :
  score (query_words_of "Say HELLO hello  hell shell") (mkNode "Hello" "Hi!" [])
  = List.length ["hello"; "hell"]
  /\ score (query_words_of "Say HELLO hello  hell shell") (mkNode "Hello" "Hi!" [])
     <= List.length (query_words_of "Say HELLO hello  hell shell").
Proof.
  apply (score_counts_distinct_matching_tokens
           "Say HELLO hello  hell shell" (mkNode "Hello" "Hi!" []) ["hello"; "hell"]).
  replace ["hello"; "hell"]
    with (filter (word_matches (mkNode "Hello" "Hi!" []))
                 (query_words_of "Say HELLO hello  hell shell"))
    by (vm_compute; reflexivity).
  apply query_words_matching.
Defined.

(** ** Whitespace-only queries *)

Lemma query_words_all_space (query : string) :
  all_space query = true -> query_words_of query = [].
Proof.
  intro H. unfold query_words_of.
  rewrite split_all_space by (rewrite all_space_lower; exact H). reflexivity.
Qed.

(** C9: a query that is not empty but holds only whitespace passes the
    empty-query test; its token set is empty, every node scores 0, and each
    strategy ends in [random.choice] on the fallback pool: the response at
    the index the generator draws, not the one at index 0. *)
Theorem whitespace_query_draws_fallback (self : MiniGPT) (query : string) (g : Rng) :
  query <> "" ->
  all_space query = true ->
  query_words_of query = []
  /\ (forall node, score (query_words_of query) node = 0)
  /\ _bfs_search self query g = fallback_choice self g
  /\ _dfs_search self query g = fallback_choice self g
  /\ (forall fb,
         find_key (knowledge_base self) "fallback" = Some fb ->
         responses fb <> [] ->
         fallback_choice self g
         = Ok (nth (g 0 mod List.length (responses fb)) (responses fb) "",
               after_draw g)).
Proof.
  intros Hq Hs. pose proof (query_words_all_space query Hs) as Hw.
  split; [exact Hw|]. split; [intro node; rewrite Hw; reflexivity|].
  split; [|split].
  - rewrite (search_nonempty_bfs self query Hq), Hw.
    rewrite fold_best_kept by (intros m _; rewrite score_nil; apply Nat.le_0_l).
    reflexivity.
  - rewrite (search_nonempty_dfs self query Hq), Hw.
    rewrite fold_best_kept by (intros m _; rewrite score_nil; apply Nat.le_0_l).
    reflexivity.
  - intros fb Hf Hr. apply fallback_choice_ok; assumption.
Qed.

Lemma whitespace_query_draws_fallback_witness :
  _bfs_search (mkMiniGPT kb_two_fallbacks tree_two_fallbacks) " " (rng_const 1)
  = Ok ("Could you rephrase that?", rng_const 1)
  /\ _dfs_search (mkMiniGPT kb_two_fallbacks tree_two_fallbacks) " " (rng_const 1)
     = Ok ("Could you rephrase that?", rng_const 1).
Proof.
  destruct (whitespace_query_draws_fallback
              (mkMiniGPT kb_two_fallbacks tree_two_fallbacks) " " (rng_const 1))
    as (_ & _ & Hb & Hd & _); [discriminate | reflexivity |].
  rewrite Hb, Hd. split; reflexivity.
Defined.

(** ** Determinism of the strategies *)

Lemma conclude_fold_matched (self : MiniGPT) (query_words : list string) (l : list Node) :
  (exists n, In n l /\ response n <> "" /\ 0 < score query_words n) ->
  exists m, In m l /\ response m <> "" /\ 0 < score query_words m
            /\ forall g,
                conclude self (fold_left (update_best query_words) l (None, 0)) g
                = Ok (response m, g).
Proof.
  intros (n & Hin & Hr & Hs).
  destruct (fold_best_result query_words l (None, 0)) as [E | (m & Hm & Hrm & Hsm & E)].
  - pose proof (fold_best_covers query_words l (None, 0) n Hin Hr) as H.
    rewrite E in H. simpl in H. lia.
  - exists m. simpl in Hsm. repeat split; auto.
    intro g. rewrite E. apply conclude_match. exact Hsm.
Qed.

Lemma fallback_first_value (self : MiniGPT) (g1 g2 : Rng) :
  value (fallback_first self g1) = value (fallback_first self g2).
Proof.
  unfold fallback_first, bind, lookup.
  destruct (find_key (knowledge_base self) "fallback") as [fb|]; [|reflexivity].
  unfold getitem, ret. cbn iota beta.
  destruct (nth_error (responses fb) 0); reflexivity.
Qed.

Lemma fallback_choice_value (self : MiniGPT) (g1 g2 : Rng) :
  (forall fb r1 r2,
      find_key (knowledge_base self) "fallback" = Some fb ->
      In r1 (responses fb) -> In r2 (responses fb) -> r1 = r2) ->
  value (fallback_choice self g1) = value (fallback_choice self g2).
Proof.
  intro Hone. unfold fallback_choice, bind, lookup.
  destruct (find_key (knowledge_base self) "fallback") as [fb|] eqn:Hf; [|reflexivity].
  unfold ret. cbn iota beta.
  destruct (responses fb) as [|r l] eqn:Hr; [reflexivity|].
  rewrite (choice_ok (r :: l) "" g1), (choice_ok (r :: l) "" g2) by discriminate.
  unfold value. f_equal.
  apply (Hone fb); [reflexivity | |]; rewrite Hr;
    apply nth_In, Nat.mod_upper_bound; discriminate.
Qed.

Lemma conclude_value (self : MiniGPT) (best : Best) (g1 g2 : Rng) :
  (forall fb r1 r2,
      find_key (knowledge_base self) "fallback" = Some fb ->
      In r1 (responses fb) -> In r2 (responses fb) -> r1 = r2) ->
  value (conclude self best g1) = value (conclude self best g2).
Proof.
  intro Hone. destruct best as [[n|] k]; simpl.
  - destruct (0 <? k); [reflexivity | apply fallback_choice_value; exact Hone].
  - apply fallback_choice_value; exact Hone.
Qed.

(** C8, as the code has it: for a fixed tree and a fixed query, two
    invocations of the breadth-first strategy return the same outcome
    whatever the state of the generator, and so do two invocations of the
    depth-first strategy, provided the query is empty, or some node with a
    response scores above zero on it, or the fallback pool holds no two
    different responses. *)
Theorem matched_search_is_deterministic
        (self : MiniGPT) (query : string) (g1 g2 : Rng) :
  query = ""
  \/ (exists n, In n (preorder (root self)) /\ response n <> ""
                /\ 0 < score (query_words_of query) n)
  \/ (forall fb r1 r2,
         find_key (knowledge_base self) "fallback" = Some fb ->
         In r1 (responses fb) -> In r2 (responses fb) -> r1 = r2) ->
  value (_bfs_search self query g1) = value (_bfs_search self query g2)
  /\ value (_dfs_search self query g1) = value (_dfs_search self query g2).
Proof.
  intros H.
  destruct (string_dec query "") as [-> | Hq];
    [split; apply fallback_first_value|].
  rewrite (search_nonempty_bfs self query Hq), (search_nonempty_dfs self query Hq).
  destruct H as [-> | [(n & Hin & Hr & Hs) | Hone]]; [congruence | |].
  - split.
    + destruct (conclude_fold_matched self (query_words_of query)
                  (bfs_visits [root self])) as (m & _ & _ & _ & E).
      { exists n. repeat split; auto.
        apply (Permutation_in n (Permutation_sym (bfs_visits_perm [root self]))).
        simpl. rewrite app_nil_r. exact Hin. }
      rewrite !E. reflexivity.
    + destruct (conclude_fold_matched self (query_words_of query)
                  (dfs_visits [root self])) as (m & _ & _ & _ & E).
      { exists n. repeat split; auto.
        rewrite dfs_visits_preorder. simpl. rewrite app_nil_r. exact Hin. }
      rewrite !E. reflexivity.
  - split; apply conclude_value; exact Hone.
Qed.

Lemma matched_search_is_deterministic_witness :
  value (_bfs_search (mkMiniGPT kb_two_fallbacks tree_two_fallbacks) "hello there"
                     (rng_const 0))
  = value (_bfs_search (mkMiniGPT kb_two_fallbacks tree_two_fallbacks) "hello there"
                       (rng_const 1))
  /\ value (_dfs_search (mkMiniGPT kb_two_fallbacks tree_two_fallbacks) "hello there"
                        (rng_const 0))
     = value (_dfs_search (mkMiniGPT kb_two_fallbacks tree_two_fallbacks) "hello there"
                          (rng_const 1)).
Proof.
  apply (matched_search_is_deterministic
           (mkMiniGPT kb_two_fallbacks tree_two_fallbacks) "hello there"
           (rng_const 0) (rng_const 1)).
  right. left. exists (mkNode "hello" "Hi there!" []). split.
  - simpl. right. right. left. reflexivity.
  - split; [discriminate | vm_compute; lia].
Defined.

(** C8, as the specification states it, fails: on a query that matches no
    node, each strategy returns a draw from the fallback pool, and two
    invocations on the same tree and query return different strings when the
    generator draws differently. *)
Lemma unmatched_search_varies_counterexample :
  value (_bfs_search (mkMiniGPT kb_two_fallbacks tree_two_fallbacks) "xyzzy"
                     (rng_const 0)) = Ok "I don't understand."
  /\ value (_bfs_search (mkMiniGPT kb_two_fallbacks tree_two_fallbacks) "xyzzy"
                        (rng_const 1)) = Ok "Could you rephrase that?"
  /\ value (_dfs_search (mkMiniGPT kb_two_fallbacks tree_two_fallbacks) "xyzzy"
                        (rng_const 0)) = Ok "I don't understand."
  /\ value (_dfs_search (mkMiniGPT kb_two_fallbacks tree_two_fallbacks) "xyzzy"
                        (rng_const 1)) = Ok "Could you rephrase that?".
Proof. repeat split; vm_compute; reflexivity. Qed.

(** ** A unique best node *)

(** C10: on a non-empty query, a node that alone attains the greatest score
    of the tree, with a positive score and a response, is the match of both
    strategies: each returns its response, without a draw, and so does
    [get_response]. *)
Theorem unique_best_node_is_returned
        (self : MiniGPT) (query : string) (l1 l2 : list Node) (n : Node) (g : Rng) :
  query <> "" ->
  preorder (root self) = l1 ++ n :: l2 ->
  (forall m, In m (l1 ++ l2) ->
             score (query_words_of query) m < score (query_words_of query) n) ->
  0 < score (query_words_of query) n ->
  response n <> "" ->
  _bfs_search self query g = Ok (response n, g)
  /\ _dfs_search self query g = Ok (response n, g)
  /\ get_response self query g = Ok (response n, g).
Proof.
  intros Hq Hpre Hmax Hpos Hr.
  assert (Hd : _dfs_search self query g = Ok (response n, g)).
  { rewrite (search_nonempty_dfs self query Hq), dfs_visits_preorder. simpl.
    rewrite app_nil_r, Hpre, fold_best_unique_max by assumption.
    apply conclude_match. exact Hpos. }
  assert (Hb : _bfs_search self query g = Ok (response n, g)).
  { rewrite (search_nonempty_bfs self query Hq).
    pose proof (bfs_visits_perm [root self]) as Hp. simpl in Hp.
    rewrite app_nil_r, Hpre in Hp.
    assert (Hin : In n (bfs_visits [root self])).
    { apply (Permutation_in n (Permutation_sym Hp)), in_or_app.
      right. left. reflexivity. }
    apply in_split in Hin as (k1 & k2 & Hk). rewrite Hk in Hp |- *.
    apply Permutation_app_inv in Hp.
    rewrite fold_best_unique_max; [apply conclude_match; exact Hpos | | exact Hpos | exact Hr].
    intros m Hm. apply Hmax. apply (Permutation_in m Hp Hm). }
  split; [exact Hb|]. split; [exact Hd|].
  unfold get_response, bind. rewrite Hb, Hd, Nat.ltb_irrefl. reflexivity.
Qed.

Lemma unique_best_node_is_returned_witness :
  _bfs_search (mkMiniGPT kb_example tree_example) "hello" (rng_const 0)
  = Ok ("Hi there!", rng_const 0)
  /\ _dfs_search (mkMiniGPT kb_example tree_example) "hello" (rng_const 0)
     = Ok ("Hi there!", rng_const 0)
  /\ get_response (mkMiniGPT kb_example tree_example) "hello" (rng_const 0)
     = Ok ("Hi there!", rng_const 0).
Proof.
  apply (unique_best_node_is_returned
           (mkMiniGPT kb_example tree_example) "hello"
           [tree_example;
            mkNode "greeting" "Hi there!"
              [mkNode "hello" "Hi there!" []; mkNode "hi" "Hi there!" []]]
           [mkNode "hi" "Hi there!" []; mkNode "fallback" "I don't understand." []]
           (mkNode "hello" "Hi there!" []) (rng_const 0)).
  - discriminate.
  - reflexivity.
  - intros m Hm. simpl in Hm.
    destruct Hm as [<- | [<- | [<- | [<- | []]]]]; vm_compute; lia.
  - vm_compute; lia.
  - discriminate.
Defined.

(** ** [get_response] always answers *)

Section Answers.

Variable self : MiniGPT.
Variable fb : Entry.

(** The invariant of the data model: the [fallback] category exists and
    has a response; here, moreover, none of its responses is empty. *)
Hypothesis fallback_present : find_key (knowledge_base self) "fallback" = Some fb.
Hypothesis fallback_inhabited : responses fb <> [].
Hypothesis fallback_nonempty : Forall (fun r => r <> "") (responses fb).

Lemma fallback_choice_answers (g : Rng) :
  exists r g', fallback_choice self g = Ok (r, g') /\ answer self fb r.
Proof.
  rewrite (fallback_choice_ok self fb g fallback_present fallback_inhabited).
  eexists _, _. split; [reflexivity|].
  assert (Hin : In (nth (g 0 mod List.length (responses fb)) (responses fb) "")
                   (responses fb)).
  { apply nth_In, Nat.mod_upper_bound.
    destruct (responses fb); [congruence | discriminate]. }
  split; [|right; exact Hin].
  apply (proj1 (Forall_forall _ _) fallback_nonempty _ Hin).
Qed.

Lemma conclude_answers (query_words : list string) (l : list Node) (g : Rng) :
  (forall n, In n l -> In n (preorder (root self))) ->
  exists r g',
    conclude self (fold_left (update_best query_words) l (None, 0)) g = Ok (r, g')
    /\ answer self fb r.
Proof.
  intro Hl.
  destruct (conclude_fold self query_words l g) as [(n & Hin & Hr & _ & E) | [_ E]].
  - exists (response n), g. split; [exact E|]. split; [exact Hr|].
    left. exists n. auto.
  - rewrite E. apply fallback_choice_answers.
Qed.

Lemma bfs_search_answers (query : string) (g : Rng) :
  query <> "" -> exists r g', _bfs_search self query g = Ok (r, g') /\ answer self fb r.
Proof.
  intro Hq. rewrite (search_nonempty_bfs self query Hq). apply conclude_answers.
  intros n Hn. apply (Permutation_in n (bfs_visits_perm [root self])) in Hn.
  simpl in Hn. rewrite app_nil_r in Hn. exact Hn.
Qed.

Lemma dfs_search_answers (query : string) (g : Rng) :
  query <> "" -> exists r g', _dfs_search self query g = Ok (r, g') /\ answer self fb r.
Proof.
  intro Hq. rewrite (search_nonempty_dfs self query Hq). apply conclude_answers.
  intros n Hn. rewrite dfs_visits_preorder in Hn.
  simpl in Hn. rewrite app_nil_r in Hn. exact Hn.
Qed.

(** C2: for every non-empty query [get_response] returns, without raising, a
  string that is not empty and is the bound response of a node of the tree
  or a response of the fallback pool. *)
Theorem get_response_always_answers (query : string) (g : Rng) :
query <> "" ->
exists r g',
  get_response self query g = Ok (r, g')
  /\ r <> ""
  /\ ((exists n, In n (preorder (root self)) /\ response n = r)
      \/ In r (responses fb)).
Proof.
intro Hq.
destruct (bfs_search_answers query g Hq) as (b & g1 & Eb & Hb).
destruct (dfs_search_answers query g1 Hq) as (d & g2 & Ed & Hd).
unfold get_response, bind. rewrite Eb, Ed.
destruct (String.length b <? String.length d).
- exists d, g2. split; [reflexivity | exact Hd].
- exists b, g2. split; [reflexivity | exact Hb].
Qed.

End Answers.

Lemma get_response_always_answers_witness :
  exists r g',
    get_response (mkMiniGPT kb_example tree_example) "what is xyzzy" (rng_const 0)
    = Ok (r, g')
    /\ r <> ""
    /\ ((exists n, In n (preorder tree_example) /\ response n = r)
        \/ In r ["I don't understand."]).
Proof.
  apply (get_response_always_answers
           (mkMiniGPT kb_example tree_example)
           (mkEntry [] ["I don't understand."])).
  - reflexivity.
  - discriminate.
  - repeat constructor; discriminate.
  - discriminate.
Defined.

(** ** The end-to-end scenarios *)

Example build_example :
  _build_response_tree kb_example (rng_const 0) = Ok (tree_example, rng_const 0).
Proof. vm_compute. reflexivity. Qed.

Example scenario_hello :
  value (get_response (mkMiniGPT kb_example tree_example) "hello" (rng_const 0))
  = Ok "Hi there!".
Proof. vm_compute. reflexivity. Qed.

Example scenario_xyzzy :
  value (get_response (mkMiniGPT kb_example tree_example) "xyzzy" (rng_const 0))
  = Ok "I don't understand.".
Proof. vm_compute. reflexivity. Qed.

Example scenario_no_fallback :
  value (get_response (mkMiniGPT [] (mkNode "ROOT" "" [])) "xyzzy" (rng_const 0))
  = Raise KeyError.
Proof. vm_compute. reflexivity. Qed.

(** * Further properties of the responder *)

(** ** Failures of the builder *)

Lemma build_category_raise_empty (item : string * Entry) (g : Rng) :
  responses (snd item) = [] -> build_category item g = Raise IndexError.
Proof.
  destruct item as [category data]. simpl. intro H.
  unfold build_category, bind at 1. rewrite H. reflexivity.
Qed.

Lemma build_category_outcome (item : string * Entry) (g : Rng) :
  (exists n g', build_category item g = Ok (n, g'))
  \/ build_category item g = Raise IndexError.
Proof.
  destruct (responses (snd item)) eqn:E.
  - right. apply build_category_raise_empty. exact E.
  - left. apply build_category_total. rewrite E. discriminate.
Qed.

Lemma build_categories_raise (kb : KnowledgeBase) (r0 : Node) (g : Rng) :
  Exists (fun item => responses (snd item) = []) kb ->
  for_each kb
    (fun root item =>
       category_node <- build_category item ;;
       ret (append_child root category_node))
    r0 g = Raise IndexError.
Proof.
  intro H. revert r0 g. induction H as [item kb H | item kb _ IH]; intros r0 g; simpl.
  - unfold bind at 1. unfold bind at 1.
    rewrite (build_category_raise_empty item g H). reflexivity.
  - unfold bind at 1. unfold bind at 1.
    destruct (build_category_outcome item g) as [(n & g' & E) | E]; rewrite E.
    + unfold ret at 1. apply IH.
    + reflexivity.
Qed.

(** X1: the builder, and with it the constructor of the responder, raises
    [IndexError] exactly when some category of the knowledge base has no
    response; in every other case it returns a tree. *)
Theorem build_raises_iff_empty_category (kb : KnowledgeBase) (g : Rng) :
  (_build_response_tree kb g = Raise IndexError
   <-> Exists (fun item => responses (snd item) = []) kb)
  /\ (init kb g = Raise IndexError
      <-> Exists (fun item => responses (snd item) = []) kb)
  /\ ((exists tree g', _build_response_tree kb g = Ok (tree, g'))
      <-> Forall (fun item => responses (snd item) <> []) kb).
Proof.
  assert (D : Exists (fun item : string * Entry => responses (snd item) = []) kb
              \/ Forall (fun item : string * Entry => responses (snd item) <> []) kb).
  { induction kb as [|item kb [IH | IH]].
    - right. constructor.
    - left. apply Exists_cons_tl. exact IH.
    - destruct (responses (snd item)) eqn:E.
      + left. apply Exists_cons_hd. exact E.
      + right. constructor; [rewrite E; discriminate | exact IH]. }
  assert (R : Exists (fun item : string * Entry => responses (snd item) = []) kb ->
              _build_response_tree kb g = Raise IndexError)
    by (intro H; apply build_categories_raise; exact H).
  assert (T : Forall (fun item : string * Entry => responses (snd item) <> []) kb ->
              exists tree g', _build_response_tree kb g = Ok (tree, g'))
    by (apply build_response_tree_total).
  split; [|split].
  - split; [|exact R]. intro H. destruct D as [D | D]; [exact D|].
    destruct (T D) as (tree & g' & E). congruence.
  - unfold init, bind. split.
    + intro H. destruct D as [D | D]; [exact D|].
      destruct (T D) as (tree & g' & E). rewrite E in H. discriminate.
    + intro H. rewrite (R H). reflexivity.
  - split; [|exact T]. intros (tree & g' & E).
    destruct D as [D | D]; [|exact D]. rewrite (R D) in E. discriminate.
Qed.

(** ** The size of the built tree and the draws of the builder *)

Lemma build_keywords_draws (data : Entry) (kws : list string) (cn n : Node) (g g' : Rng) :
  for_each kws
    (fun category_node keyword =>
       r' <- choice (responses data) ;;
       ret (append_child category_node (mkNode keyword r' [])))
    cn g = Ok (n, g') ->
  forall i, g' i = g (List.length kws + i).
Proof.
  revert cn g. induction kws as [|kw kws IH]; intros cn g H i; simpl in H.
  - injection H as _ <-. reflexivity.
  - unfold bind at 1 in H. unfold bind at 1 in H.
    destruct (choice (responses data) g) as [[r g1]|e] eqn:Ec; [|discriminate].
    apply choice_inv in Ec as [_ ->]. unfold ret at 1 in H.
    rewrite (IH _ _ H i). unfold after_draw. apply f_equal. simpl. lia.
Qed.

Lemma build_category_draws (item : string * Entry) (n : Node) (g g' : Rng) :
  build_category item g = Ok (n, g') ->
  forall i, g' i = g (S (List.length (keywords (snd item))) + i).
Proof.
  destruct item as [category data]. unfold build_category, bind at 1.
  destruct (choice (responses data) g) as [[r g1]|e] eqn:Ec; [|discriminate].
  apply choice_inv in Ec as [_ ->]. intros H i.
  rewrite (build_keywords_draws _ _ _ _ _ _ H i). unfold after_draw.
  apply f_equal. simpl. lia.
Qed.

Lemma build_categories_draws (kb : KnowledgeBase) (r0 r1 : Node) (g g' : Rng) :
  for_each kb
    (fun root item =>
       category_node <- build_category item ;;
       ret (append_child root category_node))
    r0 g = Ok (r1, g') ->
  forall i, g' i = g (List.length kb + keyword_count kb + i).
Proof.
  revert r0 g. induction kb as [|item kb IH]; intros r0 g H i; simpl in H.
  - injection H as _ <-. reflexivity.
  - unfold bind at 1 in H. unfold bind at 1 in H.
    destruct (build_category item g) as [[cn g1]|e] eqn:Ec; [|discriminate].
    unfold ret at 1 in H. rewrite (IH _ _ H i).
    rewrite (build_category_draws _ _ _ _ Ec). unfold keyword_count.
    apply f_equal. simpl. lia.
Qed.

Lemma leaf_preorder (k : Node) : children k = [] -> preorder k = [k].
Proof. intro H. rewrite preorder_unfold, H. reflexivity. Qed.

Lemma leaves_preorder (ks : list Node) :
  Forall (fun k => children k = []) ks -> flat_map preorder ks = ks.
Proof.
  induction 1 as [|k ks Hk _ IH]; simpl; [reflexivity|].
  rewrite (leaf_preorder k Hk), IH. reflexivity.
Qed.

Lemma category_node_leaves (item : string * Entry) (n : Node) :
  category_node_of item n -> Forall (fun k => children k = []) (children n).
Proof.
  intros (_ & _ & _ & H). apply Forall_forall. intros k Hk.
  apply (proj1 (Forall_forall _ _) H k Hk).
Qed.

Lemma category_preorder (item : string * Entry) (n : Node) :
  category_node_of item n -> preorder n = n :: children n.
Proof.
  intro H. rewrite preorder_unfold, leaves_preorder; [reflexivity|].
  apply (category_node_leaves item). exact H.
Qed.

Lemma categories_preorder (kb : KnowledgeBase) (cs : list Node) :
  Forall2 category_node_of kb cs ->
  flat_map preorder cs = flat_map (fun c => c :: children c) cs
  /\ List.length (flat_map preorder cs) = List.length kb + keyword_count kb.
Proof.
  unfold keyword_count.
  induction 1 as [|item n kb cs Hn _ [IH1 IH2]]; simpl; [split; reflexivity|].
  rewrite (category_preorder item n Hn), IH1. split; [reflexivity|].
  simpl. rewrite length_app, <- IH1, IH2.
  destruct Hn as (_ & _ & Hk & _). rewrite <- Hk, length_map. lia.
Qed.

(** X2: a tree the builder returns has one node per category and one per
    keyword besides the root, and building it takes exactly one draw for
    each of these nodes: the generator it leaves is the one it got, moved
    on by that many draws. *)
Theorem build_draws_once_per_node
        (kb : KnowledgeBase) (g : Rng) (tree : Node) (g' : Rng) :
  _build_response_tree kb g = Ok (tree, g') ->
  List.length (preorder tree) = 1 + List.length kb + keyword_count kb
  /\ forall i, g' i = g (List.length kb + keyword_count kb + i).
Proof.
  intro H. split.
  - destruct (build_response_tree_inv kb tree g g' H) as (_ & _ & Hf).
    rewrite preorder_unfold. simpl.
    rewrite (proj2 (categories_preorder kb (children tree) Hf)). reflexivity.
  - apply (build_categories_draws kb _ tree g g' H).
Qed.

Lemma build_draws_once_per_node_witness :
  List.length (preorder tree_example) = 1 + 2 + 2
  /\ forall i, rng_const 0 i = rng_const 0 (2 + 2 + i).
Proof.
  apply (build_draws_once_per_node kb_example (rng_const 0) tree_example (rng_const 0)).
  vm_compute. reflexivity.
Defined.

(** ** The breadth-first order *)

Lemma bfs_visits_cons (node : Node) (queue : list Node) :
  bfs_visits (node :: queue) = node :: bfs_visits (queue ++ children node).
Proof. simp bfs_visits. rewrite enqueue_children_app. reflexivity. Qed.

Lemma bfs_visits_app (queue later : list Node) :
  bfs_visits (queue ++ later)
  = queue ++ bfs_visits (later ++ flat_map children queue).
Proof.
  revert later. induction queue as [|n queue IH]; intro later; simpl.
  - rewrite app_nil_r. reflexivity.
  - rewrite bfs_visits_cons, <- app_assoc, IH, <- app_assoc. reflexivity.
Qed.

Lemma bfs_visits_levels (queue : list Node) :
  bfs_visits queue = queue ++ bfs_visits (flat_map children queue).
Proof.
  rewrite <- (app_nil_r queue) at 1. rewrite bfs_visits_app. reflexivity.
Qed.

(** X3: the breadth-first loop works level by level: it visits the nodes
    that are in its queue, in order, before any of their children, and goes
    on with all those children, in the order of their parents. *)
Theorem bfs_visits_level_by_level (queue : list Node) :
  bfs_visits queue = queue ++ bfs_visits (flat_map children queue).
Proof. apply bfs_visits_levels. Qed.

(** X4: on a tree the builder returns, the breadth-first strategy visits the
    root, then all category nodes in the order of the knowledge base, then
    all keyword nodes; the depth-first strategy visits the root, then each
    category node followed at once by its own keyword nodes. *)
Theorem visit_orders_of_built_tree
        (kb : KnowledgeBase) (g : Rng) (tree : Node) (g' : Rng) :
  _build_response_tree kb g = Ok (tree, g') ->
  bfs_visits [tree] = tree :: children tree ++ flat_map children (children tree)
  /\ dfs_visits [tree] = tree :: flat_map (fun c => c :: children c) (children tree)
  /\ map keyword (children tree) = map fst kb
  /\ map keyword (flat_map children (children tree))
     = flat_map (fun item => keywords (snd item)) kb.
Proof.
  intro H. destruct (build_response_tree_inv kb tree g g' H) as (_ & _ & Hf).
  split; [|split; [|split]].
  - rewrite bfs_visits_levels. simpl. rewrite app_nil_r.
    rewrite bfs_visits_levels. f_equal. f_equal.
    rewrite bfs_visits_levels.
    assert (E : flat_map children (flat_map children (children tree)) = []).
    { clear H. induction Hf as [|item n kb cs Hn _ IH]; simpl; [reflexivity|].
      rewrite flat_map_app, IH, app_nil_r.
      pose proof (category_node_leaves item n Hn) as Hl.
      induction Hl as [|k ks Hk _ IHk]; simpl; [reflexivity|].
      rewrite Hk, IHk. reflexivity. }
    rewrite E. simp bfs_visits. rewrite app_nil_r. reflexivity.
  - rewrite dfs_visits_preorder. simpl. rewrite app_nil_r, preorder_unfold.
    rewrite (proj1 (categories_preorder kb (children tree) Hf)). reflexivity.
  - apply category_labels. exact Hf.
  - clear H. induction Hf as [|item n kb cs Hn _ IH]; simpl; [reflexivity|].
    rewrite map_app, IH. destruct Hn as (_ & _ & Hk & _). rewrite Hk. reflexivity.
Qed.

Lemma visit_orders_of_built_tree_witness :
  bfs_visits [tree_example]
  = tree_example :: children tree_example ++ flat_map children (children tree_example)
  /\ dfs_visits [tree_example]
     = tree_example :: flat_map (fun c => c :: children c) (children tree_example)
  /\ map keyword (children tree_example) = map fst kb_example
  /\ map keyword (flat_map children (children tree_example))
     = flat_map (fun item => keywords (snd item)) kb_example.
Proof.
  apply (visit_orders_of_built_tree kb_example (rng_const 0) tree_example (rng_const 0)).
  vm_compute. reflexivity.
Defined.

(** ** What a traversal ends with *)

Lemma fold_best_optimal (query_words : list string) (tree : Node) (l : list Node) :
  (forall n, In n l <-> In n (preorder tree)) ->
  optimal_match query_words tree
    (fold_left (update_best query_words) l (None, 0)).
Proof.
  intro Hl. split.
  - intros m Hm Hr. apply fold_best_covers; [apply Hl; exact Hm | exact Hr].
  - destruct (fold_best_result query_words l (None, 0)) as [E | (n & Hin & Hr & Hs & E)];
      rewrite E; simpl; [reflexivity|].
    simpl in Hs. repeat split; auto. apply Hl. exact Hin.
Qed.

Lemma bfs_visits_nodes (tree n : Node) :
  In n (bfs_visits [tree]) <-> In n (preorder tree).
Proof.
  pose proof (bfs_visits_perm [tree]) as Hp. simpl in Hp. rewrite app_nil_r in Hp.
  split; intro H.
  - apply (Permutation_in n Hp H).
  - apply (Permutation_in n (Permutation_sym Hp) H).
Qed.

Lemma dfs_visits_nodes (tree n : Node) :
  In n (dfs_visits [tree]) <-> In n (preorder tree).
Proof. rewrite dfs_visits_preorder. simpl. rewrite app_nil_r. reflexivity. Qed.

Lemma both_loops_optimal (query_words : list string) (tree : Node) :
  optimal_match query_words tree (bfs_loop query_words [tree] (None, 0))
  /\ optimal_match query_words tree (dfs_loop query_words [tree] (None, 0)).
Proof.
  split.
  - rewrite bfs_loop_visits. apply fold_best_optimal. apply bfs_visits_nodes.
  - rewrite dfs_loop_visits. apply fold_best_optimal. apply dfs_visits_nodes.
Qed.

(** X5: each strategy ends its loop with a best score that no node with a
    response exceeds, and with a best match that is a node of the tree,
    has a response and attains that score, which is then positive; it ends
    with no match only with best score 0. *)
Theorem traversals_end_with_a_best_node (query_words : list string) (tree : Node) :
  optimal_match query_words tree (bfs_loop query_words [tree] (None, 0))
  /\ optimal_match query_words tree (dfs_loop query_words [tree] (None, 0)).
Proof. apply both_loops_optimal. Qed.

Lemma fold_best_score (query_words : list string) (l : list Node) (best : Best) :
  snd (fold_left (update_best query_words) l best)
  = fold_left Nat.max (map (candidate_score query_words) l) (snd best).
Proof.
  revert best. induction l as [|n l IH]; intro best; simpl; [reflexivity|].
  rewrite IH. f_equal. rewrite update_best_eq. unfold candidate_score.
  destruct (truthy (response n)); rewrite ?andb_true_r, ?andb_false_r.
  - destruct (snd best <? score query_words n) eqn:E; simpl.
    + apply Nat.ltb_lt in E. lia.
    + apply Nat.ltb_ge in E. lia.
  - lia.
Qed.

Lemma fold_max_perm (l l' : list nat) :
  Permutation l l' -> forall a, fold_left Nat.max l a = fold_left Nat.max l' a.
Proof.
  induction 1 as [| x l l' _ IH | x y l | l l' l'' _ IH1 _ IH2]; intro a; simpl.
  - reflexivity.
  - apply IH.
  - f_equal. lia.
  - rewrite IH1. apply IH2.
Qed.

Lemma loops_same_score (query_words : list string) (tree : Node) :
  snd (bfs_loop query_words [tree] (None, 0))
  = snd (dfs_loop query_words [tree] (None, 0)).
Proof.
  rewrite bfs_loop_visits, dfs_loop_visits, !fold_best_score.
  apply fold_max_perm, Permutation_map, visits_root_perm.
Qed.

(** X6: the two strategies always end with the same best score, whatever
    the order in which they visit the nodes; so one of them finds a match
    exactly when the other does. *)
Theorem strategies_agree_on_best_score (query_words : list string) (tree : Node) :
  snd (bfs_loop query_words [tree] (None, 0))
  = snd (dfs_loop query_words [tree] (None, 0))
  /\ (fst (bfs_loop query_words [tree] (None, 0)) = None
      <-> fst (dfs_loop query_words [tree] (None, 0)) = None).
Proof.
  pose proof (loops_same_score query_words tree) as E.
  split; [exact E|].
  destruct (both_loops_optimal query_words tree) as [Hb Hd].
  destruct Hb as [_ Hb], Hd as [_ Hd]. rewrite E in Hb.
  destruct (fst (bfs_loop query_words [tree] (None, 0))) as [nb|];
    destruct (fst (dfs_loop query_words [tree] (None, 0))) as [nd|];
    split; intro H; try reflexivity; try discriminate.
  - destruct Hb as (_ & _ & _ & Hb). lia.
  - destruct Hd as (_ & _ & _ & Hd). lia.
Qed.

(** ** Matches on a built tree *)

Lemma built_tree_nodes (kb : KnowledgeBase) (cs : list Node) (n : Node) :
  Forall2 category_node_of kb cs ->
  In n (flat_map preorder cs) ->
  exists item, In item kb
               /\ In (response n) (responses (snd item))
               /\ (keyword n = fst item \/ In (keyword n) (keywords (snd item))).
Proof.
  induction 1 as [|item c kb cs Hc _ IH]; simpl; intro Hin; [destruct Hin|].
  apply in_app_or in Hin as [Hin | Hin].
  - exists item. split; [left; reflexivity|].
    rewrite (category_preorder item c Hc) in Hin.
    destruct Hc as (Hk & Hr & Hks & Hl).
    destruct Hin as [<- | Hin]; [auto|].
    split.
    + apply (proj1 (Forall_forall _ _) Hl n Hin).
    + right. rewrite <- Hks. apply in_map. exact Hin.
  - destruct (IH Hin) as (item' & Hi & H'). exists item'. split; [right; exact Hi | exact H'].
Qed.

(** X7: on a tree the builder returns, the match of either strategy is never
    the root: it is a category node or a keyword node, and the response it
    carries is one of the responses the knowledge base lists for its
    category. *)
Theorem match_comes_from_its_category
        (kb : KnowledgeBase) (g : Rng) (tree : Node) (g' : Rng)
        (query_words : list string) (n : Node) :
  _build_response_tree kb g = Ok (tree, g') ->
  fst (bfs_loop query_words [tree] (None, 0)) = Some n
  \/ fst (dfs_loop query_words [tree] (None, 0)) = Some n ->
  n <> tree
  /\ exists item, In item kb
                  /\ In (response n) (responses (snd item))
                  /\ (keyword n = fst item \/ In (keyword n) (keywords (snd item))).
Proof.
  intros H Hm.
  destruct (build_response_tree_inv kb tree g g' H) as (_ & Hr & Hf).
  destruct (both_loops_optimal query_words tree) as [[_ Hb] [_ Hd]].
  assert (Hn : In n (preorder tree) /\ response n <> "").
  { destruct Hm as [Hm | Hm]; [rewrite Hm in Hb | rewrite Hm in Hd]; tauto. }
  destruct Hn as [Hin Hne]. split; [congruence|].
  rewrite preorder_unfold in Hin.
  destruct Hin as [<- | Hin]; [congruence|].
  apply (built_tree_nodes kb (children tree) n Hf Hin).
Qed.

Lemma match_comes_from_its_category_witness :
  mkNode "greeting" "Hi there!"
    [mkNode "hello" "Hi there!" []; mkNode "hi" "Hi there!" []] <> tree_example
  /\ exists item, In item kb_example
                  /\ In "Hi there!" (responses (snd item))
                  /\ ("greeting" = fst item \/ In "greeting" (keywords (snd item))).
Proof.
  apply (match_comes_from_its_category kb_example (rng_const 0) tree_example
           (rng_const 0) (query_words_of "greetings root")
           (mkNode "greeting" "Hi there!"
              [mkNode "hello" "Hi there!" []; mkNode "hi" "Hi there!" []])).
  - vm_compute. reflexivity.
  - left. vm_compute. reflexivity.
Defined.

(** ** What a query is read as *)

Lemma truthy_lower (s : string) : truthy (lower s) = truthy s.
Proof. destruct s; reflexivity. Qed.

(** X8: matching ignores the case of the query: two queries with the same
    lowercase form get the same outcome from each strategy and from
    [get_response], in every state of the generator. *)
Theorem matching_ignores_case (self : MiniGPT) (query1 query2 : string) :
  lower query1 = lower query2 ->
  _bfs_search self query1 = _bfs_search self query2
  /\ _dfs_search self query1 = _dfs_search self query2
  /\ get_response self query1 = get_response self query2.
Proof.
  intro H.
  assert (Ht : truthy query1 = truthy query2)
    by (rewrite <- (truthy_lower query1), <- (truthy_lower query2), H; reflexivity).
  assert (Hw : query_words_of query1 = query_words_of query2)
    by (unfold query_words_of; rewrite H; reflexivity).
  assert (Hb : _bfs_search self query1 = _bfs_search self query2)
    by (unfold _bfs_search; rewrite Ht, Hw; reflexivity).
  assert (Hd : _dfs_search self query1 = _dfs_search self query2)
    by (unfold _dfs_search; rewrite Ht, Hw; reflexivity).
  repeat split; auto. unfold get_response. rewrite Hb, Hd. reflexivity.
Qed.

Lemma matching_ignores_case_witness :
  _bfs_search (mkMiniGPT kb_example tree_example) "HeLLo There"
  = _bfs_search (mkMiniGPT kb_example tree_example) "hello THERE"
  /\ _dfs_search (mkMiniGPT kb_example tree_example) "HeLLo There"
     = _dfs_search (mkMiniGPT kb_example tree_example) "hello THERE"
  /\ get_response (mkMiniGPT kb_example tree_example) "HeLLo There"
     = get_response (mkMiniGPT kb_example tree_example) "hello THERE".
Proof.
  apply (matching_ignores_case (mkMiniGPT kb_example tree_example)
           "HeLLo There" "hello THERE").
  reflexivity.
Defined.

Lemma filter_incl_length (f : string -> bool) (l1 l2 : list string) :
  NoDup l1 -> (forall t, In t l1 -> In t l2) ->
  List.length (filter f l1) <= List.length (filter f l2).
Proof.
  intros Hnd Hin. apply NoDup_incl_length; [apply NoDup_filter; exact Hnd|].
  intros t Ht. apply filter_In in Ht as [Ht Hf]. apply filter_In. auto.
Qed.

Lemma score_same_tokens (l1 l2 : list string) (node : Node) :
  NoDup l1 -> NoDup l2 -> (forall t, In t l1 <-> In t l2) ->
  score l1 node = score l2 node.
Proof.
  intros H1 H2 H. rewrite !score_length. apply Nat.le_antisymm.
  - apply filter_incl_length; [exact H1 | intros t; apply H].
  - apply filter_incl_length; [exact H2 | intros t; apply H].
Qed.

Lemma update_best_ext (qw1 qw2 : list string) (l : list Node) (best : Best) :
  (forall n, score qw1 n = score qw2 n) ->
  fold_left (update_best qw1) l best = fold_left (update_best qw2) l best.
Proof.
  intro H. revert best. induction l as [|n l IH]; intro best; simpl; [reflexivity|].
  rewrite IH, !update_best_eq, H. reflexivity.
Qed.

(** X9: matching sees the query as a set of words: two non-empty queries
    whose lowercase forms hold the same words, in whatever order, however
    often and with whatever whitespace between them, get the same outcome
    from each strategy and from [get_response]. *)
Theorem matching_ignores_order_and_repeats
        (self : MiniGPT) (query1 query2 : string) (g : Rng) :
  query1 <> "" -> query2 <> "" ->
  (forall t, In t (split (lower query1)) <-> In t (split (lower query2))) ->
  _bfs_search self query1 g = _bfs_search self query2 g
  /\ _dfs_search self query1 g = _dfs_search self query2 g
  /\ get_response self query1 g = get_response self query2 g.
Proof.
  intros H1 H2 H.
  assert (Hs : forall n, score (query_words_of query1) n
                         = score (query_words_of query2) n).
  { intro n. apply score_same_tokens; try apply NoDup_nodup.
    intro t. unfold query_words_of. rewrite !nodup_In. apply H. }
  assert (Hb : forall g0, _bfs_search self query1 g0 = _bfs_search self query2 g0).
  { intro g0. rewrite (search_nonempty_bfs self query1 H1),
      (search_nonempty_bfs self query2 H2).
    rewrite (update_best_ext _ _ _ _ Hs). reflexivity. }
  assert (Hd : forall g0, _dfs_search self query1 g0 = _dfs_search self query2 g0).
  { intro g0. rewrite (search_nonempty_dfs self query1 H1),
      (search_nonempty_dfs self query2 H2).
    rewrite (update_best_ext _ _ _ _ Hs). reflexivity. }
  repeat split; auto. unfold get_response, bind. rewrite Hb.
  destruct (_bfs_search self query2 g) as [[b g1]|e]; [|reflexivity].
  rewrite Hd. reflexivity.
Qed.

Lemma matching_ignores_order_and_repeats_witness :
  _bfs_search (mkMiniGPT kb_example tree_example) "hi  hello hi" (rng_const 0)
  = _bfs_search (mkMiniGPT kb_example tree_example) " Hello hi" (rng_const 0)
  /\ _dfs_search (mkMiniGPT kb_example tree_example) "hi  hello hi" (rng_const 0)
     = _dfs_search (mkMiniGPT kb_example tree_example) " Hello hi" (rng_const 0)
  /\ get_response (mkMiniGPT kb_example tree_example) "hi  hello hi" (rng_const 0)
     = get_response (mkMiniGPT kb_example tree_example) " Hello hi" (rng_const 0).
Proof.
  apply (matching_ignores_order_and_repeats (mkMiniGPT kb_example tree_example)
           "hi  hello hi" " Hello hi" (rng_const 0)).
  - discriminate.
  - discriminate.
  - intro t. vm_compute. tauto.
Defined.

(** X10: words added to a query never lower a score: if every word of one
    query is a word of another, each node scores on the second at least
    what it scores on the first. *)
Theorem more_words_never_lower_a_score (query1 query2 : string) (node : Node) :
  (forall t, In t (split (lower query1)) -> In t (split (lower query2))) ->
  score (query_words_of query1) node <= score (query_words_of query2) node.
Proof.
  intro H. rewrite !score_length.
  apply filter_incl_length; [apply NoDup_nodup|].
  intro t. unfold query_words_of. rewrite !nodup_In. apply H.
Qed.

Lemma more_words_never_lower_a_score_witness :
  score (query_words_of "hello") (mkNode "hello" "Hi there!" [])
  <= score (query_words_of "well hello there shell") (mkNode "hello" "Hi there!" []).
Proof.
  apply (more_words_never_lower_a_score "hello" "well hello there shell"
           (mkNode "hello" "Hi there!" [])).
  intro t. vm_compute. tauto.
Defined.

(** ** An empty label *)

Lemma startswith_nil (s : string) : startswith "" s = true.
Proof. destruct s; reflexivity. Qed.

Lemma contains_nil (s : string) : contains "" s = true.
Proof. destruct s; reflexivity. Qed.

Lemma split_nil_words (query : string) :
  query_words_of query <> [] -> query <> "".
Proof. intros H ->. apply H. reflexivity. Qed.

(** X11: a node whose label is the empty string matches every word: its
    score is the number of distinct words of the query. With a response,
    such a node of the tree brings the best score of both strategies to
    that number, so a query with at least one word then never falls back. *)
Theorem empty_label_matches_every_word
        (self : MiniGPT) (query : string) (n : Node) :
  keyword n = "" ->
  In n (preorder (root self)) ->
  response n <> "" ->
  query_words_of query <> [] ->
  score (query_words_of query) n = List.length (query_words_of query)
  /\ snd (bfs_loop (query_words_of query) [root self] (None, 0))
     = List.length (query_words_of query)
  /\ snd (dfs_loop (query_words_of query) [root self] (None, 0))
     = List.length (query_words_of query)
  /\ fst (bfs_loop (query_words_of query) [root self] (None, 0)) <> None
  /\ fst (dfs_loop (query_words_of query) [root self] (None, 0)) <> None.
Proof.
  intros Hk Hin Hr Hw.
  assert (Hs : score (query_words_of query) n = List.length (query_words_of query)).
  { rewrite score_length. f_equal. apply forallb_filter_id.
    apply forallb_forall. intros w _. unfold word_matches.
    rewrite Hk. simpl. rewrite contains_nil. apply orb_true_r. }
  assert (Hpos : 0 < List.length (query_words_of query))
    by (destruct (query_words_of query); [congruence | simpl; lia]).
  destruct (both_loops_optimal (query_words_of query) (root self)) as [[Hb1 Hb2] [Hd1 Hd2]].
  pose proof (Hb1 n Hin Hr) as Hb. pose proof (Hd1 n Hin Hr) as Hd.
  rewrite Hs in Hb, Hd.
  assert (Eb : snd (bfs_loop (query_words_of query) [root self] (None, 0))
               = List.length (query_words_of query)).
  { apply Nat.le_antisymm; [|exact Hb].
    destruct (fst (bfs_loop (query_words_of query) [root self] (None, 0))) as [m|].
    - destruct Hb2 as (_ & _ & <- & _). apply score_le.
    - lia. }
  assert (Ed : snd (dfs_loop (query_words_of query) [root self] (None, 0))
               = List.length (query_words_of query)).
  { apply Nat.le_antisymm; [|exact Hd].
    destruct (fst (dfs_loop (query_words_of query) [root self] (None, 0))) as [m|].
    - destruct Hd2 as (_ & _ & <- & _). apply score_le.
    - lia. }
  repeat split; auto.
  - intro E. rewrite E in Hb2. lia.
  - intro E. rewrite E in Hd2. lia.
Qed.

Lemma empty_label_matches_every_word_witness :
  let self := mkMiniGPT kb_example
                (mkNode "ROOT" "" [mkNode "misc" "Go on." [mkNode "" "Tell me more." []]]) in
  let query := "what is xyzzy" in
  score (query_words_of query) (mkNode "" "Tell me more." []) = 3
  /\ snd (bfs_loop (query_words_of query) [root self] (None, 0)) = 3
  /\ snd (dfs_loop (query_words_of query) [root self] (None, 0)) = 3
  /\ fst (bfs_loop (query_words_of query) [root self] (None, 0)) <> None
  /\ fst (dfs_loop (query_words_of query) [root self] (None, 0)) <> None.
Proof.
  intros self query.
  apply (empty_label_matches_every_word self query (mkNode "" "Tell me more." [])).
  - reflexivity.
  - simpl. right. right. left. reflexivity.
  - discriminate.
  - vm_compute. discriminate.
Defined.

(** ** The fallback pool, needed or not *)

Lemma search_unmatched (self : MiniGPT) (query_words : list string) (l : list Node) (g : Rng) :
  (forall n, In n l -> In n (preorder (root self))) ->
  no_candidate query_words (root self) ->
  conclude self (fold_left (update_best query_words) l (None, 0)) g
  = fallback_choice self g.
Proof.
  intros Hl Hno.
  destruct (conclude_fold self query_words l g) as [(n & Hin & Hr & Hs & _) | [_ E]];
    [|exact E].
  specialize (Hno n (Hl n Hin) Hr). lia.
Qed.

Lemma bfs_search_unmatched (self : MiniGPT) (query : string) (g : Rng) :
  query <> "" -> no_candidate (query_words_of query) (root self) ->
  _bfs_search self query g = fallback_choice self g.
Proof.
  intros Hq Hno. rewrite (search_nonempty_bfs self query Hq).
  apply search_unmatched; [|exact Hno]. intros n. apply bfs_visits_nodes.
Qed.

Lemma dfs_search_unmatched (self : MiniGPT) (query : string) (g : Rng) :
  query <> "" -> no_candidate (query_words_of query) (root self) ->
  _dfs_search self query g = fallback_choice self g.
Proof.
  intros Hq Hno. rewrite (search_nonempty_dfs self query Hq).
  apply search_unmatched; [|exact Hno]. intros n. apply dfs_visits_nodes.
Qed.

(** X12: when the query is empty or no node qualifies, [get_response] needs
    the fallback pool: it raises [KeyError] if the knowledge base has no
    [fallback] category and [IndexError] if that category has no response. *)
Theorem get_response_raises_without_fallback_pool
        (self : MiniGPT) (query : string) (g : Rng) :
  query = "" \/ no_candidate (query_words_of query) (root self) ->
  (find_key (knowledge_base self) "fallback" = None ->
   get_response self query g = Raise KeyError)
  /\ (forall fb, find_key (knowledge_base self) "fallback" = Some fb ->
                 responses fb = [] ->
                 get_response self query g = Raise IndexError).
Proof.
  intro H.
  assert (Hb : _bfs_search self query g = fallback_first self g
               \/ _bfs_search self query g = fallback_choice self g).
  { destruct (string_dec query "") as [-> | Hq]; [left; reflexivity|].
    right. destruct H as [H | H]; [congruence|].
    apply bfs_search_unmatched; assumption. }
  split.
  - intro Hf. unfold get_response, bind.
    destruct Hb as [-> | ->]; unfold fallback_first, fallback_choice, bind, lookup;
      rewrite Hf; reflexivity.
  - intros fb Hf Hr. unfold get_response, bind.
    destruct Hb as [-> | ->]; unfold fallback_first, fallback_choice, bind, lookup;
      rewrite Hf; unfold ret; cbn iota beta; rewrite Hr; reflexivity.
Qed.

Lemma get_response_raises_without_fallback_pool_witness :
  (find_key [("greeting", mkEntry ["hello"] ["Hi there!"])] "fallback" = None ->
   get_response (mkMiniGPT [("greeting", mkEntry ["hello"] ["Hi there!"])]
                           (mkNode "ROOT" "" [mkNode "greeting" "Hi there!" []]))
                "" (rng_const 0) = Raise KeyError)
  /\ (forall fb,
         find_key [("greeting", mkEntry ["hello"] ["Hi there!"])] "fallback" = Some fb ->
         responses fb = [] ->
         get_response (mkMiniGPT [("greeting", mkEntry ["hello"] ["Hi there!"])]
                                 (mkNode "ROOT" "" [mkNode "greeting" "Hi there!" []]))
                      "" (rng_const 0) = Raise IndexError).
Proof.
  apply (get_response_raises_without_fallback_pool
           (mkMiniGPT [("greeting", mkEntry ["hello"] ["Hi there!"])]
                      (mkNode "ROOT" "" [mkNode "greeting" "Hi there!" []]))
           "" (rng_const 0)).
  left. reflexivity.
Defined.

(** X13: a non-empty query on which some node with a response scores above
    zero never needs the fallback pool: whatever the knowledge base holds,
    even without a [fallback] category, [get_response] returns the longer
    of the responses of the two best matches, and draws nothing. *)
Theorem matched_query_needs_no_fallback
        (self : MiniGPT) (query : string) (n : Node) (g : Rng) :
  query <> "" ->
  In n (preorder (root self)) ->
  response n <> "" ->
  0 < score (query_words_of query) n ->
  exists nb nd,
    fst (bfs_loop (query_words_of query) [root self] (None, 0)) = Some nb
    /\ fst (dfs_loop (query_words_of query) [root self] (None, 0)) = Some nd
    /\ score (query_words_of query) nb = score (query_words_of query) nd
    /\ score (query_words_of query) n <= score (query_words_of query) nb
    /\ get_response self query g = Ok (longer (response nb) (response nd), g).
Proof.
  intros Hq Hin Hr Hs.
  destruct (both_loops_optimal (query_words_of query) (root self)) as [[Hb1 Hb2] [Hd1 Hd2]].
  pose proof (Hb1 n Hin Hr) as Hb. pose proof (Hd1 n Hin Hr) as Hd.
  destruct (bfs_loop (query_words_of query) [root self] (None, 0)) as [[nb|] kb] eqn:Eb;
    simpl in *; [|lia].
  destruct (dfs_loop (query_words_of query) [root self] (None, 0)) as [[nd|] kd] eqn:Ed;
    simpl in *; [|lia].
  exists nb, nd.
  assert (Ek : kb = kd).
  { pose proof (Hb1 nd (proj1 Hd2) (proj1 (proj2 Hd2))).
    pose proof (Hd1 nb (proj1 Hb2) (proj1 (proj2 Hb2))).
    destruct Hb2 as (_ & _ & Hb2 & _), Hd2 as (_ & _ & Hd2 & _). lia. }
  destruct Hb2 as (_ & _ & Hb2 & Hb3), Hd2 as (_ & _ & Hd2 & Hd3).
  repeat split; try lia.
  unfold get_response, bind, _bfs_search, _dfs_search.
  apply truthy_true in Hq. rewrite Hq. simpl. rewrite Eb, Ed.
  rewrite (conclude_match self nb kb g Hb3), (conclude_match self nd kd g Hd3).
  unfold longer. destruct (String.length (response nb) <? String.length (response nd));
    reflexivity.
Qed.

Lemma matched_query_needs_no_fallback_witness :
  exists nb nd,
    fst (bfs_loop (query_words_of "hello")
           [mkNode "ROOT" "" [mkNode "hello" "Hi there!" []]] (None, 0)) = Some nb
    /\ fst (dfs_loop (query_words_of "hello")
              [mkNode "ROOT" "" [mkNode "hello" "Hi there!" []]] (None, 0)) = Some nd
    /\ score (query_words_of "hello") nb = score (query_words_of "hello") nd
    /\ score (query_words_of "hello") (mkNode "hello" "Hi there!" [])
       <= score (query_words_of "hello") nb
    /\ get_response (mkMiniGPT [] (mkNode "ROOT" "" [mkNode "hello" "Hi there!" []]))
                    "hello" (rng_const 0)
       = Ok (longer (response nb) (response nd), rng_const 0).
Proof.
  apply (matched_query_needs_no_fallback
           (mkMiniGPT [] (mkNode "ROOT" "" [mkNode "hello" "Hi there!" []]))
           "hello" (mkNode "hello" "Hi there!" []) (rng_const 0)).
  - discriminate.
  - simpl. right. left. reflexivity.
  - discriminate.
  - vm_compute. lia.
Defined.

(** X14: a non-empty query on which no node qualifies costs two draws, one
    by each strategy: [get_response] returns the longer of the two fallback
    responses drawn, the first one when they are equally long. *)
Theorem unmatched_query_draws_twice
        (self : MiniGPT) (query : string) (fb : Entry) (g : Rng) :
  query <> "" ->
  no_candidate (query_words_of query) (root self) ->
  find_key (knowledge_base self) "fallback" = Some fb ->
  responses fb <> [] ->
  get_response self query g
  = Ok (longer (nth (g 0 mod List.length (responses fb)) (responses fb) "")
               (nth (g 1 mod List.length (responses fb)) (responses fb) ""),
        after_draw (after_draw g)).
Proof.
  intros Hq Hno Hf Hr. unfold get_response, bind.
  rewrite (bfs_search_unmatched self query g Hq Hno).
  rewrite (fallback_choice_ok self fb g Hf Hr).
  rewrite (dfs_search_unmatched self query (after_draw g) Hq Hno).
  rewrite (fallback_choice_ok self fb (after_draw g) Hf Hr).
  unfold longer, after_draw.
  destruct (String.length _ <? String.length _); reflexivity.
Qed.

Lemma unmatched_query_draws_twice_witness :
  get_response (mkMiniGPT kb_two_fallbacks tree_two_fallbacks) "xyzzy" (fun i => i)
  = Ok (longer (nth (0 mod 2) ["I don't understand."; "Could you rephrase that?"] "")
               (nth (1 mod 2) ["I don't understand."; "Could you rephrase that?"] ""),
        after_draw (after_draw (fun i => i))).
Proof.
  apply (unmatched_query_draws_twice
           (mkMiniGPT kb_two_fallbacks tree_two_fallbacks) "xyzzy"
           (mkEntry [] ["I don't understand."; "Could you rephrase that?"])
           (fun i => i)).
  - discriminate.
  - intros n Hn _. simpl in Hn.
    destruct Hn as [<- | [<- | [<- | [<- | [<- | []]]]]]; vm_compute; reflexivity.
  - reflexivity.
  - discriminate.
Defined.

(** X15: on the empty query [get_response] returns the first response of
    the fallback pool and draws nothing: both strategies return it, and the
    breadth-first one wins the tie. *)
Theorem get_response_of_empty_query
        (self : MiniGPT) (fb : Entry) (r0 : string) (rest : list string) (g : Rng) :
  find_key (knowledge_base self) "fallback" = Some fb ->
  responses fb = r0 :: rest ->
  get_response self "" g = Ok (r0, g).
Proof.
  intros Hf Hr.
  assert (Hb : _bfs_search self "" g = Ok (r0, g))
    by (apply (fallback_first_ok self fb r0 rest g Hf Hr)).
  assert (Hd : _dfs_search self "" g = Ok (r0, g))
    by (apply (fallback_first_ok self fb r0 rest g Hf Hr)).
  unfold get_response, bind. rewrite Hb, Hd, Nat.ltb_irrefl. reflexivity.
Qed.

Lemma get_response_of_empty_query_witness :
  get_response (mkMiniGPT kb_two_fallbacks tree_two_fallbacks) "" (rng_const 1)
  = Ok ("I don't understand.", rng_const 1).
Proof.
  apply (get_response_of_empty_query
           (mkMiniGPT kb_two_fallbacks tree_two_fallbacks)
           (mkEntry [] ["I don't understand."; "Could you rephrase that?"])
           "I don't understand." ["Could you rephrase that?"] (rng_const 1));
    reflexivity.
Defined.

(** ** Failures do not depend on the draws *)

Lemma fallback_choice_raise (self : MiniGPT) (g : Rng) (e : exn) :
  fallback_choice self g = Raise e -> forall g', fallback_choice self g' = Raise e.
Proof.
  unfold fallback_choice, bind, lookup.
  destruct (find_key (knowledge_base self) "fallback") as [fb|]; [|auto].
  unfold ret. cbn iota beta. destruct (responses fb) as [|r l] eqn:Hr; [auto|].
  rewrite (choice_ok (r :: l) "" g) by discriminate. discriminate.
Qed.

Lemma fallback_first_raise (self : MiniGPT) (g : Rng) (e : exn) :
  fallback_first self g = Raise e -> forall g', fallback_first self g' = Raise e.
Proof.
  unfold fallback_first, bind, lookup.
  destruct (find_key (knowledge_base self) "fallback") as [fb|]; [|auto].
  unfold ret, getitem. cbn iota beta.
  destruct (nth_error (responses fb) 0); [discriminate | auto].
Qed.

Lemma conclude_raise (self : MiniGPT) (best : Best) (g : Rng) (e : exn) :
  conclude self best g = Raise e ->
  (fst best = None \/ snd best = 0)
  /\ forall g', conclude self best g' = Raise e.
Proof.
  destruct best as [[n|] k]; simpl.
  - destruct k as [|k]; simpl; [|discriminate].
    intro H. split; [right; reflexivity | apply (fallback_choice_raise self g e H)].
  - intro H. split; [left; reflexivity | apply (fallback_choice_raise self g e H)].
Qed.

Lemma conclude_unmatched (self : MiniGPT) (best : Best) :
  fst best = None \/ snd best = 0 -> conclude self best = fallback_choice self.
Proof.
  destruct best as [[n|] k]; simpl; intros [H | H]; try discriminate; try reflexivity.
  rewrite H. reflexivity.
Qed.

(** X16: whether [get_response] raises does not depend on the draws: if it
    raises in one state of the generator it raises the same exception in
    every state, and so does the breadth-first strategy, the first thing it
    runs. A raise therefore comes before any draw. *)
Theorem get_response_raises_whatever_the_draws
        (self : MiniGPT) (query : string) (g : Rng) (e : exn) :
  get_response self query g = Raise e ->
  forall g', _bfs_search self query g' = Raise e
             /\ get_response self query g' = Raise e.
Proof.
  intros H g'.
  assert (Hb : forall g0, _bfs_search self query g0 = Raise e).
  { destruct (string_dec query "") as [-> | Hq].
    - unfold get_response, bind in H.
      change (_bfs_search self "" g) with (fallback_first self g) in H.
      destruct (fallback_first self g) as [[b g1]|e0] eqn:Eb.
      + change (_dfs_search self "" g1) with (fallback_first self g1) in H.
        destruct (fallback_first self g1) as [[d g2]|e1] eqn:Ed.
        * destruct (String.length b <? String.length d); discriminate.
        * pose proof (fallback_first_raise self g1 e1 Ed g) as Hg. congruence.
      + injection H as <-. intro g0. apply (fallback_first_raise self g e0 Eb).
    - intro g0. rewrite (search_nonempty_bfs self query Hq).
      unfold get_response, bind in H.
      rewrite (search_nonempty_bfs self query Hq) in H.
      destruct (conclude self _ g) as [[b g1]|e0] eqn:Eb.
      + rewrite (search_nonempty_dfs self query Hq) in H.
        destruct (conclude self _ g1) as [[d g2]|e1] eqn:Ed;
          [destruct (String.length b <? String.length d); discriminate|].
        exfalso. apply conclude_raise in Ed as [Hd Hraise].
        rewrite <- dfs_loop_visits in Hd, Hraise.
        rewrite <- bfs_loop_visits in Eb.
        destruct (both_loops_optimal (query_words_of query) (root self)) as [[_ Hb2] [_ Hd2]].
        pose proof (loops_same_score (query_words_of query) (root self)) as Es.
        assert (Hu : fst (bfs_loop (query_words_of query) [root self] (None, 0)) = None
                     \/ snd (bfs_loop (query_words_of query) [root self] (None, 0)) = 0).
        { right. rewrite Es. destruct Hd as [Hd | Hd]; [|exact Hd].
          rewrite Hd in Hd2. exact Hd2. }
        rewrite (conclude_unmatched self _ Hu) in Eb.
        specialize (Hraise g).
        assert (Hu' : fst (dfs_loop (query_words_of query) [root self] (None, 0)) = None
                      \/ snd (dfs_loop (query_words_of query) [root self] (None, 0)) = 0)
          by exact Hd.
        rewrite (conclude_unmatched self _ Hu') in Hraise. congruence.
      + injection H as <-. apply (proj2 (conclude_raise self _ g e0 Eb)). }
  split; [apply Hb|]. unfold get_response, bind. rewrite Hb. reflexivity.
Qed.

Lemma get_response_raises_whatever_the_draws_witness :
  _bfs_search (mkMiniGPT [] (mkNode "ROOT" "" [])) "xyzzy" (fun i => i) = Raise KeyError
  /\ get_response (mkMiniGPT [] (mkNode "ROOT" "" [])) "xyzzy" (fun i => i)
     = Raise KeyError.
Proof.
  apply (get_response_raises_whatever_the_draws
           (mkMiniGPT [] (mkNode "ROOT" "" [])) "xyzzy" (rng_const 0) KeyError).
  vm_compute. reflexivity.
Defined.

(** * The chat endpoint *)

(** ** The store of conversations *)

Lemma key_eqb_eq (a b : option string) : App.key_eqb a b = true <-> a = b.
Proof.
  destruct a as [x|], b as [y|]; simpl; try (split; congruence).
  rewrite String.eqb_eq. split; congruence.
Qed.

Lemma key_eqb_refl (a : option string) : App.key_eqb a a = true.
Proof. apply key_eqb_eq. reflexivity. Qed.

Lemma key_eqb_neq (a b : option string) : a <> b -> App.key_eqb a b = false.
Proof.
  intro H. destruct (App.key_eqb a b) eqn:E; [|reflexivity].
  apply key_eqb_eq in E. congruence.
Qed.

Lemma dict_get_set_same (d : App.Conversations) (k : option string) (v : App.Conversation) :
  App.dict_get (App.dict_set d k v) k = Some v.
Proof.
  induction d as [|[k0 v0] d IH]; simpl.
  - rewrite key_eqb_refl. reflexivity.
  - destruct (App.key_eqb k0 k) eqn:E; simpl; rewrite E; [reflexivity | exact IH].
Qed.

Lemma dict_get_set_other (d : App.Conversations) (k k' : option string)
      (v : App.Conversation) :
  k' <> k -> App.dict_get (App.dict_set d k v) k' = App.dict_get d k'.
Proof.
  intro H. induction d as [|[k0 v0] d IH]; simpl.
  - rewrite key_eqb_neq by congruence. reflexivity.
  - destruct (App.key_eqb k0 k) eqn:E; simpl.
    + apply key_eqb_eq in E. subst k0. rewrite key_eqb_neq by congruence.
      reflexivity.
    + rewrite IH. reflexivity.
Qed.

Lemma dict_set_absent (d : App.Conversations) (k : option string) (v : App.Conversation) :
  App.dict_get d k = None -> App.dict_set d k v = d ++ [(k, v)].
Proof.
  induction d as [|[k0 v0] d IH]; simpl; [reflexivity|].
  destruct (App.key_eqb k0 k); [discriminate|]. intro H. rewrite (IH H). reflexivity.
Qed.

Lemma dict_set_keys (d : App.Conversations) (k : option string) (v : App.Conversation) :
  forall c, App.dict_get d k = Some c -> map fst (App.dict_set d k v) = map fst d.
Proof.
  induction d as [|[k0 v0] d IH]; simpl; intros c H; [discriminate|].
  destruct (App.key_eqb k0 k); simpl; [reflexivity|].
  rewrite (IH c H). reflexivity.
Qed.

(** X17: [get_or_create_conversation] never raises. It returns the
    conversation stored under the id, leaving the store as it is, or, when
    there is none, a fresh conversation (active, holding the system message
    only) that it adds at the end of the store under that id; the
    conversations of other ids are not touched. *)
Theorem get_or_create_conversation_spec
        (conversation_id : option string) (d : App.Conversations) :
  exists conversation d',
    App.get_or_create_conversation conversation_id d = (App.Return conversation, d')
    /\ App.dict_get d' conversation_id = Some conversation
    /\ (forall c, App.dict_get d conversation_id = Some c ->
                  conversation = c /\ d' = d)
    /\ (App.dict_get d conversation_id = None ->
        conversation = App.Conversation_init
        /\ d' = d ++ [(conversation_id, App.Conversation_init)])
    /\ (forall k, k <> conversation_id -> App.dict_get d' k = App.dict_get d k).
Proof.
  unfold App.get_or_create_conversation, App.dict_mem.
  destruct (App.dict_get d conversation_id) as [c|] eqn:E; simpl.
  - rewrite E. exists c, d. repeat split; auto; try congruence; discriminate.
  - rewrite dict_get_set_same.
    exists App.Conversation_init, (App.dict_set d conversation_id App.Conversation_init).
    split; [reflexivity|]. split; [apply dict_get_set_same|].
    split; [discriminate|]. split.
    + intros _. split; [reflexivity | apply dict_set_absent; exact E].
    + intros k Hk. apply dict_get_set_other. exact Hk.
Qed.

(** ** Reading a completion *)

(** The text a chunk adds, when it has a choice. *)
Lemma read_chunks_spec (cs : list App.Chunk) (acc : string) :
  (Forall (fun chunk => chunk <> []) cs
   /\ App.read_chunks acc cs
      = App.Return (acc ++ String.concat "" (map App.first_text cs))%string)
  \/ (Exists (fun chunk => chunk = []) cs
      /\ App.read_chunks acc cs = App.Throw (App.Builtin IndexError)).
Proof.
  revert acc. induction cs as [|chunk cs IH]; intro acc.
  - left. split; [constructor|]. simpl. rewrite string_app_nil_r. reflexivity.
  - destruct chunk as [|content choices].
    + right. split; [left; reflexivity | reflexivity].
    + assert (E : forall text,
                 App.chunk_text (content :: choices) = App.Return text ->
                 text = match content with Some c => c | None => "" end).
      { intros text H. destruct content; simpl in H; congruence. }
      cbn [App.read_chunks].
      destruct (App.chunk_text (content :: choices)) as [text|e] eqn:Et;
        [|destruct content; discriminate].
      rewrite (E text eq_refl).
      destruct (IH (acc ++ match content with Some c => c | None => "" end)%string)
        as [[Hf Hr] | [He Hr]].
      * left. split; [constructor; [discriminate | exact Hf]|].
        rewrite Hr. cbn [map]. f_equal.
        rewrite string_app_assoc. f_equal.
        destruct cs as [|c2 cs2]; simpl; [rewrite string_app_nil_r|]; reflexivity.
      * right. split; [right; exact He | exact Hr].
Qed.

Section ChatProperties.

Variable minigpt : MiniGPT.
Variable create : list App.Message -> App.Completion.
Variable str : App.Exc -> string.

Lemma query_groq_api_return (conversation : App.Conversation) (st : App.State)
      (response : string) :
  App.read_completion (create (App.messages conversation)) = App.Return response ->
  App.query_groq_api create str conversation st = (App.Return response, st).
Proof. intro H. unfold App.query_groq_api. rewrite H. reflexivity. Qed.

Lemma query_groq_api_throw (conversation : App.Conversation) (st : App.State)
      (e : App.Exc) :
  App.read_completion (create (App.messages conversation)) = App.Throw e ->
  App.query_groq_api create str conversation st
  = (App.Throw (App.HTTPException 500 ("Error querying Groq API: " ++ str e)%string),
     App.log_error ("Error querying Groq API: " ++ str e)%string st).
Proof. intro H. unfold App.query_groq_api. rewrite H. reflexivity. Qed.

(** X18: [query_groq_api] returns the texts of the first choices of the
    chunks, put together in order, a missing text counting as empty, when
    every chunk has a choice and the stream ends well, and then changes
    nothing. Otherwise it logs and raises status 500: for [IndexError] at
    the first chunk without a choice, whatever the stream does later, for
    the error of the stream when every chunk has a choice. *)
Theorem query_groq_api_outcomes (conversation : App.Conversation) (st : App.State) :
  let completion := create (App.messages conversation) in
  let failed e :=
    (App.Throw (App.HTTPException 500 ("Error querying Groq API: " ++ str e)%string),
     App.log_error ("Error querying Groq API: " ++ str e)%string st) in
  (Forall (fun chunk => chunk <> []) (App.chunks completion) ->
   App.query_groq_api create str conversation st
   = match App.failure completion with
     | None => (App.Return (String.concat ""
                              (map App.first_text (App.chunks completion))), st)
     | Some e => failed e
     end)
  /\ (Exists (fun chunk => chunk = []) (App.chunks completion) ->
      App.query_groq_api create str conversation st
      = failed (App.Builtin IndexError)).
Proof.
  intros completion failed. unfold App.query_groq_api, App.read_completion.
  fold completion.
  destruct (read_chunks_spec (App.chunks completion) "") as [[Hf Hr] | [He Hr]];
    rewrite Hr; split.
  - intros _. destruct (App.failure completion); reflexivity.
  - intro He. exfalso. apply Exists_exists in He as (chunk & Hin & Hc).
    apply (proj1 (Forall_forall _ _) Hf chunk Hin Hc).
  - intro Hf. exfalso. apply Exists_exists in He as (chunk & Hin & Hc).
    apply (proj1 (Forall_forall _ _) Hf chunk Hin Hc).
  - intros _. reflexivity.
Qed.

Lemma state_eta (st : App.State) :
  App.mkState (App.conversations st) (App.random st) (App.log st) = st.
Proof. destruct st; reflexivity. Qed.

Lemma mode_minigpt (input : App.User) :
  App.mode input = "minigpt" -> String.eqb (App.mode input) "minigpt" = true.
Proof. intros ->. reflexivity. Qed.

Lemma mode_groq (input : App.User) :
  App.mode input <> "minigpt" -> String.eqb (App.mode input) "minigpt" = false.
Proof. intro H. apply String.eqb_neq. exact H. Qed.

(** X19: in the [minigpt] mode, with a knowledge base that has a [fallback]
    category whose responses are there and not empty, a request with a
    non-empty message is always answered: the reply carries an answer of the
    responder and the conversation id of the request, and the request
    leaves the stored conversations and the log as they were. *)
Theorem chat_minigpt_always_answers
        (input : App.User) (st : App.State) (fb : Entry) :
  App.mode input = "minigpt" ->
  App.message input <> "" ->
  find_key (knowledge_base minigpt) "fallback" = Some fb ->
  responses fb <> [] ->
  Forall (fun r => r <> "") (responses fb) ->
  exists r g',
    App.chat minigpt create str input st
    = (App.Return [("response", Some r);
                   ("conversation_id", App.conversation_id input)],
       App.mkState (App.conversations st) g' (App.log st))
    /\ answer minigpt fb r.
Proof.
  intros Hm Hq Hf Hne Hall.
  destruct (bfs_search_answers minigpt fb Hf Hne Hall (App.message input)
              (App.random st) Hq) as (b & g1 & Eb & Hb).
  destruct (dfs_search_answers minigpt fb Hf Hne Hall (App.message input) g1 Hq)
    as (d & g2 & Ed & Hd).
  unfold App.chat, App.chat_body. rewrite (mode_minigpt input Hm).
  unfold get_response, bind. rewrite Eb, Ed.
  destruct (String.length b <? String.length d).
  - exists d, g2. split; [reflexivity | exact Hd].
  - exists b, g2. split; [reflexivity | exact Hb].
Qed.

(** X20: [chat] never raises anything but status 500. The status 400 its
    body raises for a conversation that is not active is caught with the
    rest: the client gets status 500, with the text of the caught
    exception in the detail, the failure is logged, and the stored
    conversations are left as they were. *)
Theorem chat_raises_only_status_500
        (input : App.User) (st : App.State) (conversation : App.Conversation) :
  App.mode input <> "minigpt" ->
  App.dict_get (App.conversations st) (App.conversation_id input) = Some conversation ->
  App.active conversation = false ->
  let inactive :=
    App.HTTPException 400
      "Conversation is inactive. Please start a new conversation." in
  App.chat minigpt create str input st
  = (App.Throw (App.HTTPException 500
                  ("Error processing request: " ++ str inactive)%string),
     App.log_error ("Error occurred: " ++ str inactive)%string st)
  /\ forall input' st' e st'',
      App.chat minigpt create str input' st' = (App.Throw e, st'') ->
      exists detail, e = App.HTTPException 500 detail.
Proof.
  intros Hm Hget Hact inactive. split.
  - unfold App.chat, App.chat_body. rewrite (mode_groq input Hm).
    unfold App.get_or_create_conversation, App.dict_mem. rewrite Hget. simpl.
    rewrite Hget, Hact. simpl. rewrite state_eta. reflexivity.
  - intros input' st' e st'' H. unfold App.chat in H.
    destruct (App.chat_body minigpt create str input' st') as [[reply|e0] st0];
      [discriminate|].
    injection H as <- _. eexists. reflexivity.
Qed.

(** The conversation a request of the Groq mode works on: the stored one,
    or a fresh one when the id is new. *)
Lemma get_or_create_current (id : option string) (d : App.Conversations) :
  App.get_or_create_conversation id d
  = (App.Return (match App.dict_get d id with
                 | Some c => c
                 | None => App.Conversation_init
                 end),
     match App.dict_get d id with
     | Some _ => d
     | None => App.dict_set d id App.Conversation_init
     end).
Proof.
  unfold App.get_or_create_conversation, App.dict_mem.
  destruct (App.dict_get d id) as [c|] eqn:E; simpl.
  - rewrite E. reflexivity.
  - rewrite dict_get_set_same. reflexivity.
Qed.

Lemma dict_get_created (id k : option string) (d : App.Conversations) :
  k <> id ->
  App.dict_get (match App.dict_get d id with
                | Some _ => d
                | None => App.dict_set d id App.Conversation_init
                end) k
  = App.dict_get d k.
Proof.
  intro H. destruct (App.dict_get d id); [reflexivity|].
  apply dict_get_set_other. exact H.
Qed.

(** X21: in the Groq mode, on a conversation that is active or new, when the
    completion is read well the reply carries its text, and the stored
    conversation of the request grows by exactly two messages, the one of
    the user and then the one of the assistant; the other conversations,
    the generator and the log are left as they were. *)
Theorem chat_groq_appends_both_messages
        (input : App.User) (st : App.State) (response : string) :
  let current := match App.dict_get (App.conversations st) (App.conversation_id input) with
                 | Some c => c
                 | None => App.Conversation_init
                 end in
  App.mode input <> "minigpt" ->
  App.active current = true ->
  App.read_completion
    (create (App.messages current ++ [App.user_message input]))
  = App.Return response ->
  exists st',
    App.chat minigpt create str input st
    = (App.Return [("response", Some response);
                   ("conversation_id", App.conversation_id input)], st')
    /\ App.dict_get (App.conversations st') (App.conversation_id input)
       = Some (App.mkConversation
                 (App.messages current
                  ++ [App.user_message input; App.assistant_message response])
                 true)
    /\ (forall k, k <> App.conversation_id input ->
                  App.dict_get (App.conversations st') k
                  = App.dict_get (App.conversations st) k)
    /\ App.random st' = App.random st
    /\ App.log st' = App.log st.
Proof.
  intros current Hm Hact Hread.
  unfold App.chat, App.chat_body. rewrite (mode_groq input Hm).
  rewrite get_or_create_current. fold current. rewrite Hact. cbn [negb].
  cbv zeta.
  rewrite (query_groq_api_return _ _ response)
    by (unfold App.append_message; cbn [App.messages]; exact Hread).
  eexists. split; [reflexivity|]. unfold App.store. cbn [App.conversations App.random App.log].
  split; [|split; [|split; reflexivity]].
  - rewrite dict_get_set_same. unfold App.append_message. cbn [App.messages App.active].
    rewrite Hact, <- app_assoc. reflexivity.
  - intros k Hk. rewrite !dict_get_set_other by exact Hk.
    apply dict_get_created. exact Hk.
Qed.

(** X22: in the Groq mode, when reading the completion fails, the request
    is answered with status 500 and logged twice, but the message of the
    user has already been added to the stored conversation and stays
    there, with no message of the assistant after it. *)
Theorem chat_groq_failure_keeps_user_message
        (input : App.User) (st : App.State) (e : App.Exc) :
  let current := match App.dict_get (App.conversations st) (App.conversation_id input) with
                 | Some c => c
                 | None => App.Conversation_init
                 end in
  let inner := App.HTTPException 500 ("Error querying Groq API: " ++ str e)%string in
  App.mode input <> "minigpt" ->
  App.active current = true ->
  App.read_completion
    (create (App.messages current ++ [App.user_message input]))
  = App.Throw e ->
  exists st',
    App.chat minigpt create str input st
    = (App.Throw (App.HTTPException 500
                    ("Error processing request: " ++ str inner)%string), st')
    /\ App.dict_get (App.conversations st') (App.conversation_id input)
       = Some (App.mkConversation
                 (App.messages current ++ [App.user_message input]) true)
    /\ (forall k, k <> App.conversation_id input ->
                  App.dict_get (App.conversations st') k
                  = App.dict_get (App.conversations st) k)
    /\ App.random st' = App.random st
    /\ App.log st'
       = App.log st ++ [("Error querying Groq API: " ++ str e)%string;
                        ("Error occurred: " ++ str inner)%string].
Proof.
  intros current inner Hm Hact Hread.
  unfold App.chat, App.chat_body. rewrite (mode_groq input Hm).
  rewrite get_or_create_current. fold current. rewrite Hact. cbn [negb].
  cbv zeta.
  rewrite (query_groq_api_throw _ _ e)
    by (unfold App.append_message; cbn [App.messages]; exact Hread).
  eexists. split; [reflexivity|].
  unfold App.store, App.log_error. cbn [App.conversations App.random App.log].
  split; [|split; [|split]].
  - rewrite dict_get_set_same. unfold App.append_message. cbn [App.messages App.active].
    rewrite Hact. reflexivity.
  - intros k Hk. rewrite dict_get_set_other by exact Hk.
    apply dict_get_created. exact Hk.
  - reflexivity.
  - rewrite <- app_assoc. reflexivity.
Qed.

(** ** The invariant of the store *)

Lemma store_ok_set (d : App.Conversations) (k : option string) (v : App.Conversation) :
  App.store_ok d -> App.conversation_ok v -> App.store_ok (App.dict_set d k v).
Proof.
  unfold App.store_ok. intros Hd Hv. induction d as [|[k0 v0] d IH]; simpl.
  - constructor; [exact Hv | constructor].
  - inversion Hd as [|? ? H0 Hd']; subst.
    destruct (App.key_eqb k0 k); constructor; auto.
Qed.

Lemma store_ok_get (d : App.Conversations) (k : option string) (c : App.Conversation) :
  App.store_ok d -> App.dict_get d k = Some c -> App.conversation_ok c.
Proof.
  unfold App.store_ok. intros Hd. induction d as [|[k0 v0] d IH]; simpl; [discriminate|].
  inversion Hd as [|? ? H0 Hd']; subst.
  destruct (App.key_eqb k0 k); [intro H; injection H as <-; exact H0 | apply IH; exact Hd'].
Qed.

Lemma conversation_ok_append (c : App.Conversation) (m : App.Message) :
  App.conversation_ok c -> App.conversation_ok (App.append_message c m).
Proof.
  intros [Ha Hh]. split; [exact Ha|]. unfold App.append_message. simpl.
  destruct (App.messages c); [discriminate | exact Hh].
Qed.

Lemma conversation_ok_init : App.conversation_ok App.Conversation_init.
Proof. split; reflexivity. Qed.

Lemma chat_body_store_ok (input : App.User) (st : App.State) :
  App.store_ok (App.conversations st) ->
  App.store_ok (App.conversations (snd (App.chat_body minigpt create str input st)))
  /\ forall detail st',
      App.chat_body minigpt create str input st
      <> (App.Throw (App.HTTPException 400 detail), st').
Proof.
  intro Hok. unfold App.chat_body.
  destruct (String.eqb (App.mode input) "minigpt").
  - destruct (get_response minigpt (App.message input) (App.random st)) as [[r g]|e];
      simpl; (split; [exact Hok | intros; discriminate]).
  - rewrite get_or_create_current.
    set (id := App.conversation_id input).
    set (current := match App.dict_get (App.conversations st) id with
                    | Some c => c
                    | None => App.Conversation_init
                    end).
    set (d := match App.dict_get (App.conversations st) id with
              | Some _ => App.conversations st
              | None => App.dict_set (App.conversations st) id App.Conversation_init
              end).
    assert (Hc : App.conversation_ok current).
    { unfold current. destruct (App.dict_get (App.conversations st) id) eqn:E;
        [apply (store_ok_get _ _ _ Hok E) | apply conversation_ok_init]. }
    assert (Hd : App.store_ok d).
    { unfold d. destruct (App.dict_get (App.conversations st) id);
        [exact Hok | apply store_ok_set; [exact Hok | apply conversation_ok_init]]. }
    rewrite (proj1 Hc). cbn [negb]. cbv zeta.
    unfold App.query_groq_api.
    destruct (App.read_completion _) as [response|e]; simpl.
    + split; [|intros; discriminate].
      apply store_ok_set; [apply store_ok_set; [exact Hd|]|];
        repeat apply conversation_ok_append; exact Hc.
    + split; [|intros; discriminate].
      apply store_ok_set; [exact Hd | apply conversation_ok_append; exact Hc].
Qed.

(** X23: in every state the process can reach from its start by serving
    requests, each stored conversation is active and begins with the system
    message; so the body of [chat] never raises the status 400 of an
    inactive conversation there. *)
Theorem reachable_store_is_ok (st : App.State) :
  App.reachable minigpt create str st ->
  App.store_ok (App.conversations st)
  /\ forall input detail st',
      App.chat_body minigpt create str input st
      <> (App.Throw (App.HTTPException 400 detail), st').
Proof.
  intro H.
  assert (Hok : App.store_ok (App.conversations st)).
  { induction H as [g | input st _ IH].
    - constructor.
    - pose proof (proj1 (chat_body_store_ok input st IH)) as Hb.
      unfold App.chat.
      destruct (App.chat_body minigpt create str input st) as [[reply|e] st'];
        exact Hb. }
  split; [exact Hok|].
  intros input. apply (chat_body_store_ok input st Hok).
Qed.

End ChatProperties.

Lemma chat_minigpt_always_answers_witness :
  exists r g',
    App.chat (mkMiniGPT kb_example tree_example) create_hello str_example
             (App.mkUser "tell me about xyzzy" "user" (Some "c1") "minigpt")
             (App.initial_state (rng_const 0))
    = (App.Return [("response", Some r); ("conversation_id", Some "c1")],
       App.mkState [] g' [])
    /\ answer (mkMiniGPT kb_example tree_example)
              (mkEntry [] ["I don't understand."]) r.
Proof.
  apply (chat_minigpt_always_answers (mkMiniGPT kb_example tree_example)
           create_hello str_example
           (App.mkUser "tell me about xyzzy" "user" (Some "c1") "minigpt")
           (App.initial_state (rng_const 0))
           (mkEntry [] ["I don't understand."])).
  - reflexivity.
  - discriminate.
  - reflexivity.
  - discriminate.
  - repeat constructor; discriminate.
Defined.

Lemma chat_raises_only_status_500_witness :
  App.chat (mkMiniGPT kb_example tree_example) create_hello str_example
           (App.mkUser "Hi" "user" (Some "c1") "groq")
           (App.mkState store_ended (rng_const 0) [])
  = (App.Throw
       (App.HTTPException 500
          "Error processing request: Conversation is inactive. Please start a new conversation."),
     App.mkState store_ended (rng_const 0)
       ["Error occurred: Conversation is inactive. Please start a new conversation."]).
Proof.
  apply (chat_raises_only_status_500 (mkMiniGPT kb_example tree_example)
           create_hello str_example
           (App.mkUser "Hi" "user" (Some "c1") "groq")
           (App.mkState store_ended (rng_const 0) [])
           (App.end_conversation App.Conversation_init)).
  - discriminate.
  - reflexivity.
  - reflexivity.
Defined.

Lemma chat_groq_appends_both_messages_witness :
  exists st',
    App.chat (mkMiniGPT kb_example tree_example) create_hello str_example
             (App.mkUser "Hi" "user" (Some "c1") "groq")
             (App.initial_state (rng_const 0))
    = (App.Return [("response", Some "Hello"); ("conversation_id", Some "c1")], st')
    /\ App.dict_get (App.conversations st') (Some "c1")
       = Some (App.mkConversation
                 [App.system_message;
                  [("role", "user"); ("content", "Hi")];
                  [("role", "assistant"); ("content", "Hello")]]
                 true)
    /\ (forall k, k <> Some "c1" -> App.dict_get (App.conversations st') k = None)
    /\ App.random st' = rng_const 0
    /\ App.log st' = [].
Proof.
  apply (chat_groq_appends_both_messages (mkMiniGPT kb_example tree_example)
           create_hello str_example
           (App.mkUser "Hi" "user" (Some "c1") "groq")
           (App.initial_state (rng_const 0)) "Hello").
  - discriminate.
  - reflexivity.
  - reflexivity.
Defined.

Lemma chat_groq_failure_keeps_user_message_witness :
  exists st',
    App.chat (mkMiniGPT kb_example tree_example) create_failing str_example
             (App.mkUser "Hi" "user" None "groq")
             (App.initial_state (rng_const 0))
    = (App.Throw
         (App.HTTPException 500
            "Error processing request: Error querying Groq API: APIConnectionError"),
       st')
    /\ App.dict_get (App.conversations st') None
       = Some (App.mkConversation
                 [App.system_message; [("role", "user"); ("content", "Hi")]] true)
    /\ (forall k, k <> None -> App.dict_get (App.conversations st') k = None)
    /\ App.random st' = rng_const 0
    /\ App.log st'
       = ["Error querying Groq API: APIConnectionError";
          "Error occurred: Error querying Groq API: APIConnectionError"].
Proof.
  apply (chat_groq_failure_keeps_user_message (mkMiniGPT kb_example tree_example)
           create_failing str_example
           (App.mkUser "Hi" "user" None "groq")
           (App.initial_state (rng_const 0))
           (App.ClientError "APIConnectionError")).
  - discriminate.
  - reflexivity.
  - reflexivity.
Defined.

Lemma reachable_store_is_ok_witness :
  let st := snd (App.chat (mkMiniGPT kb_example tree_example) create_failing str_example
                          (App.mkUser "Hi" "user" None "groq")
                          (App.initial_state (rng_const 0))) in
  App.store_ok (App.conversations st)
  /\ forall input detail st',
      App.chat_body (mkMiniGPT kb_example tree_example) create_failing str_example
                    input st
      <> (App.Throw (App.HTTPException 400 detail), st').
Proof.
  intro st.
  apply (reachable_store_is_ok (mkMiniGPT kb_example tree_example)
           create_failing str_example st).
  apply App.reach_chat. apply App.reach_initial.
Defined.
